(** * sitemap-crawler: a shallow embedding of [src/index.ts]

    The functions of the source are embedded one by one: [shuffle] and the
    queue [main] builds from it, the prompt helpers ([ask], [validateAsk])
    with [askConfigurations], [validateURL], [saveResults], and the worker
    pool of [main].

    JavaScript arrays that are passed around by reference live in a store
    ([heap]); promises suspended at an [await] are program points of a
    worker; everything the environment decides (what the operator types,
    what [Math.random] returns, how an HTTP request settles, which
    suspended task the event loop resumes next) is an explicit input.
    A string is the sequence of the UTF-8 bytes of the JavaScript string. *)

From Stdlib Require Import ZArith NArith QArith Qround Qreduction Ascii String.
From stdpp Require Import gmap strings list fin_maps.

Local Open Scope string_scope.
Local Open Scope list_scope.
Local Open Scope nat_scope.

(** ** Arrays in the store *)

(** References, and the arrays of element type [T] that are alive. *)
Abbreviation loc := nat (only parsing).
Abbreviation heap T := (gmap nat (list T)) (only parsing).

Section Store.
Context {T : Type}.
Implicit Types (h : heap T).

(** The elements of the array a reference points to. *)
Definition deref h (a : loc) : list T := default [] (h !! a).

Definition alloc h (elems : list T) : loc * heap T :=
  let a := fresh (dom h) in (a, <[a := elems]> h).

(** [[...array]]: a new array with the elements of [array]. *)
Definition spread h (array : loc) : loc * heap T :=
  alloc h (deref h array).

(** [array[i]]; [None] is JavaScript's [undefined] of a read past the end. *)
Definition array_get h (array : loc) (i : nat) : option T :=
  h !! array ≫= (.!! i).

(** [array[i] = v] for [i] below the length. *)
Definition array_set h (array : loc) (i : nat) (v : T) : heap T :=
  alter (<[i := v]>) array h.
End Store.

(** ** Math.random *)

(** One result of [Math.random()]: the number [numer / denom] of [[0, 1)]. *)
Record unit_real := {
  numer : N;
  denom : positive;
  below_one : (numer <? Npos denom)%N = true
}.

(** The results of the calls still to come, by order of call. *)
Definition rng := nat -> unit_real.

Definition Math_random (g : rng) : unit_real * rng :=
  (g 0, fun k => g (S k)).

(** [Math.floor(r * n)], of the exact product. The product of the source is
    a double: rounded, it can reach the next integer where the exact one is
    just below it, and stays below [n] all the same. What is proved of
    [shuffle] holds for every index below [n]. *)
Definition floor_scaled (r : unit_real) (n : nat) : nat :=
  N.to_nat ((numer r * N.of_nat n) / Npos (denom r)).

(** ** shuffle *)

Section Shuffle.
Context {T : Type}.

(** The [while (currentIndex !== 0)] loop. Both indices of the swap are
    below the length of [newArray] (see [shuffle_loop_turn]), so no read
    yields [undefined]; the last branch is never taken. *)
Fixpoint shuffle_loop (currentIndex : nat) (newArray : loc)
    (h : heap T) (g : rng) : heap T * rng :=
  match currentIndex with
  | 0 => (h, g)
  | S currentIndex =>
      let '(r, g) := Math_random g in
      let randomIndex := floor_scaled r (S currentIndex) in
      match array_get h newArray currentIndex,
            array_get h newArray randomIndex with
      | Some temporaryValue, Some picked =>
          let h := array_set h newArray currentIndex picked in
          let h := array_set h newArray randomIndex temporaryValue in
          shuffle_loop currentIndex newArray h g
      | _, _ => shuffle_loop currentIndex newArray h g
      end
  end.

Definition shuffle (array : loc) (h : heap T) (g : rng) : loc * heap T * rng :=
  let '(newArray, h) := spread h array in
  let currentIndex := length (deref h newArray) in
  let '(h, g) := shuffle_loop currentIndex newArray h g in
  (newArray, h, g).
End Shuffle.

(** The opening of [main] up to [const urlQueue = [...urls]]: the result of
    [shuffle(urls)] is an expression statement, its value is dropped. *)
Definition enqueue (traversalOrder : string) (urls : loc)
    (h : heap string) (g : rng) : loc * heap string * rng :=
  let '(h, g) :=
    if String.eqb traversalOrder "random"
    then let '(_, h, g) := shuffle urls h g in (h, g)
    else (h, g) in
  let '(urlQueue, h) := spread h urls in
  (urlQueue, h, g).

Definition zero_real : unit_real :=
  {| numer := 0; denom := 1; below_one := eq_refl |}.

Definition half_real : unit_real :=
  {| numer := 1; denom := 2; below_one := eq_refl |}.

(** ** Strings and numbers of the prompts *)

(** [s.toLowerCase()] on the ASCII letters. No other character lower-cases to
    an ASCII letter that the source compares with, so bytes above 127 stay. *)
Definition lower_ascii (c : ascii) : ascii :=
  let n := nat_of_ascii c in
  if (65 <=? n) && (n <=? 90) then ascii_of_nat (n + 32) else c.

Fixpoint toLowerCase (s : string) : string :=
  match s with
  | EmptyString => EmptyString
  | String c s => String (lower_ascii c) (toLowerCase s)
  end.

(** A string in a condition: only the empty string is falsy. *)
Definition truthy (s : string) : bool := negb (String.eqb s "").

(** [s.startsWith(p)]. *)
Definition startsWith (s p : string) : bool := String.prefix p s.

(** [xs.includes(s)] on an array of strings. *)
Definition includes (xs : list string) (s : string) : bool :=
  existsb (String.eqb s) xs.

(** A JavaScript number: [NaN], an infinity, or a double by its value. *)
Inductive number :=
  | NaN
  | Infinity (negative : bool)
  | Finite (q : Q).

(** [a > b] and [a < b]; a comparison with [NaN] is false. *)
Definition js_gt (a b : number) : bool :=
  match a, b with
  | NaN, _ | _, NaN => false
  | Infinity na, Infinity nb => negb na && nb
  | Infinity na, Finite _ => negb na
  | Finite _, Infinity nb => nb
  | Finite p, Finite q => negb (Qle_bool p q)
  end.

Definition js_lt (a b : number) : bool := js_gt b a.

Definition of_Z (z : Z) : number := Finite (inject_Z z).

Module StringToNumber.
(** The grammar [StringNumericLiteral] of ECMAScript that [Number(string)]
    applies, on the bytes of the string, and the mathematical value of the
    literal. *)

(** [StrWhiteSpaceChar] by the bytes that write it: TAB, LF, VT, FF, CR and
    SP in one byte; U+00A0 in two; U+1680, U+2000 to U+200A, U+2028,
    U+2029, U+202F, U+205F, U+3000 and U+FEFF in three. *)
Definition is_space (c : ascii) : bool :=
  match N_of_ascii c with
  | 9 | 10 | 11 | 12 | 13 | 32 => true
  | _ => false
  end%N.

Definition is_space2 (c1 c2 : ascii) : bool :=
  ((N_of_ascii c1 =? 194) && (N_of_ascii c2 =? 160))%N.

Definition is_space3 (c1 c2 c3 : ascii) : bool :=
  let n1 := N_of_ascii c1 in
  let n2 := N_of_ascii c2 in
  let n3 := N_of_ascii c3 in
  ((n1 =? 225) && (n2 =? 154) && (n3 =? 128)
   || (n1 =? 226) && (n2 =? 128)
      && ((128 <=? n3) && (n3 <=? 138) || (n3 =? 168) || (n3 =? 169)
          || (n3 =? 175))
   || (n1 =? 226) && (n2 =? 129) && (n3 =? 159)
   || (n1 =? 227) && (n2 =? 128) && (n3 =? 128)
   || (n1 =? 239) && (n2 =? 187) && (n3 =? 191))%N.

Definition is_digit (c : ascii) : bool :=
  let n := nat_of_ascii c in (48 <=? n) && (n <=? 57).

Definition digit_value (c : ascii) : Z := Z.of_nat (nat_of_ascii c - 48).

(** The value of a hexadecimal digit, which covers the octal and binary
    digits as well. *)
Definition hex_value (c : ascii) : option Z :=
  let n := nat_of_ascii c in
  if (48 <=? n) && (n <=? 57) then Some (Z.of_nat (n - 48))
  else if (65 <=? n) && (n <=? 70) then Some (Z.of_nat (n - 55))
  else if (97 <=? n) && (n <=? 102) then Some (Z.of_nat (n - 87))
  else None.

(** The list without the white space it starts with; [backwards] for a
    list that is read from its end, where the bytes of a character come
    last byte first. *)
Fixpoint drop_spaces (backwards : bool) (s : list ascii) : list ascii :=
  match s with
  | c1 :: s1 =>
      if is_space c1 then drop_spaces backwards s1 else
      match s1 with
      | c2 :: s2 =>
          if (if backwards then is_space2 c2 c1 else is_space2 c1 c2)
          then drop_spaces backwards s2 else
          match s2 with
          | c3 :: s3 =>
              if (if backwards then is_space3 c3 c2 c1 else is_space3 c1 c2 c3)
              then drop_spaces backwards s3 else s
          | [] => s
          end
      | [] => s
      end
  | [] => []
  end.

Definition trim (s : list ascii) : list ascii :=
  rev (drop_spaces true (rev (drop_spaces false s))).

(** The longest prefix of decimal digits, and what follows it. *)
Fixpoint span_digits (s : list ascii) : list ascii * list ascii :=
  match s with
  | c :: s' =>
      if is_digit c
      then let '(ds, rest) := span_digits s' in (c :: ds, rest)
      else ([], s)
  | [] => ([], [])
  end.

Definition digits_value (ds : list ascii) : Z :=
  fold_left (fun acc c => (acc * 10 + digit_value c)%Z) ds 0%Z.

(** Digits in base [radix], all of them, at least one. *)
Fixpoint radix_value (radix : Z) (acc : Z) (s : list ascii) : option Z :=
  match s with
  | [] => Some acc
  | c :: s' =>
      match hex_value c with
      | Some d =>
          if (d <? radix)%Z
          then radix_value radix (acc * radix + d)%Z s' else None
      | None => None
      end
  end.

Definition NonDecimalIntegerLiteral (s : list ascii) : option (option Z) :=
  match s with
  | "0"%char :: p :: ds =>
      let radix :=
        if (p =? "x")%char || (p =? "X")%char then Some 16%Z
        else if (p =? "o")%char || (p =? "O")%char then Some 8%Z
        else if (p =? "b")%char || (p =? "B")%char then Some 2%Z
        else None in
      match radix with
      | Some r => Some (match ds with [] => None | _ => radix_value r 0 ds end)
      | None => None
      end
  | _ => None
  end.

(** [ExponentPart], optional: the exponent, when the rest of the literal
    is one or is empty. *)
Definition ExponentPart (s : list ascii) : option Z :=
  match s with
  | [] => Some 0%Z
  | e :: s' =>
      if (e =? "e")%char || (e =? "E")%char then
        let '(negative, ds) :=
          match s' with
          | "+"%char :: ds => (false, ds)
          | "-"%char :: ds => (true, ds)
          | _ => (false, s')
          end in
        match span_digits ds with
        | ((_ :: _) as es, []) =>
            Some (if negative then - digits_value es else digits_value es)%Z
        | _ => None
        end
      else None
  end.

Definition StrUnsignedDecimalLiteral (s : list ascii) : number :=
  if String.eqb (string_of_list_ascii s) "Infinity" then Infinity false else
  let '(int_part, rest) := span_digits s in
  let '(frac_part, rest) :=
    match rest with
    | "."%char :: rest' => span_digits rest'
    | _ => ([], rest)
    end in
  match int_part ++ frac_part, ExponentPart rest with
  | (_ :: _) as ds, Some e =>
      Finite (inject_Z (digits_value ds)
              * Qpower (inject_Z 10) (e - Z.of_nat (length frac_part)))
  | _, _ => NaN
  end.

Definition negate (x : number) : number :=
  match x with
  | NaN => NaN
  | Infinity negative => Infinity (negb negative)
  | Finite q => Finite (- q)
  end.

Definition StrNumericLiteral (s : list ascii) : number :=
  match NonDecimalIntegerLiteral s with
  | Some (Some z) => of_Z z
  | Some None => NaN
  | None =>
      match s with
      | "+"%char :: s' => StrUnsignedDecimalLiteral s'
      | "-"%char :: s' => negate (StrUnsignedDecimalLiteral s')
      | _ => StrUnsignedDecimalLiteral s
      end
  end.

Definition parse (s : string) : number :=
  match trim (list_ascii_of_string s) with
  | [] => of_Z 0
  | t => StrNumericLiteral t
  end.
End StringToNumber.

Module Double.
(** The Number value for a mathematical value: the nearest double, the one
    with an even significand of two that are as near, and an infinity from
    [2 ^ 1024 - 2 ^ 970] on. Doubles have 53 bits and exponents from -1074. *)

(** The fraction [(a / b) / 2 ^ e]. *)
Definition scaled (e a b : Z) : Z * Z :=
  if (0 <=? e)%Z then (a, b * 2 ^ e)%Z else (a * 2 ^ (- e), b)%Z.

(** The exponent [e] with [2 ^ e <= a / b < 2 ^ (e + 1)], for positive [a]
    and [b]. *)
Definition floor_log2 (a b : Z) : Z :=
  let e := (Z.log2 a - Z.log2 b)%Z in
  let '(n, d) := scaled e a b in
  if (n <? d)%Z then (e - 1)%Z else e.

(** The integer nearest to [n / d], the even one of two that are as near. *)
Definition nearest_even (n d : Z) : Z :=
  let q := (n / d)%Z in
  let r := (2 * (n mod d))%Z in
  if (r <? d)%Z then q
  else if (d <? r)%Z then (q + 1)%Z
  else if Z.even q then q else (q + 1)%Z.

(** [m * 2 ^ e]. *)
Definition times_pow2 (m e : Z) : Q :=
  if (0 <=? e)%Z then inject_Z (m * 2 ^ e) else Qmake m (Z.to_pos (2 ^ (- e))).

Definition round_positive (a b : Z) : number :=
  let e := (Z.max (floor_log2 a b) (-1022) - 52)%Z in
  let '(n, d) := scaled e a b in
  let v := times_pow2 (nearest_even n d) e in
  if Qle_bool (inject_Z (2 ^ 1024)) v then Infinity false else Finite (Qred v).

Definition round (q : Q) : number :=
  match Qnum q with
  | Z0 => Finite 0
  | Zpos a => round_positive (Zpos a) (Zpos (Qden q))
  | Zneg a => StringToNumber.negate (round_positive (Zpos a) (Zpos (Qden q)))
  end.
End Double.

(** [Number(input)] of a string: the value of the literal, rounded. *)
Definition Number (input : string) : number :=
  match StringToNumber.parse input with
  | Finite value => Double.round value
  | x => x
  end.

(** [Math.floor(r * n)] as the source computes it, the product rounded to a
    double, for a result [r] of [Math.random] that is a double. [None]: the
    product is no finite number, which takes an [n] from [2 ^ 1024] on. *)
Definition floor_scaled_double (r : unit_real) (n : nat) : option nat :=
  match Double.round (Qmake (Z.of_N (numer r) * Z.of_nat n) (denom r)) with
  | Finite product => Some (Z.to_nat (Qfloor product))
  | _ => None
  end.

(** A result of [Math.random] with no more than 26 bits after the point: a
    multiple of [2 ^ -26], which is a double. *)
Definition coarse (r : unit_real) : Prop := denom r = (2 ^ 26)%positive.

(** The turns of [for (let i = 0; i < x; i++)]: [Math.ceil(x)] for a finite
    [x], none for [NaN] and for the negative infinity. For the positive
    infinity the loop of the source does not end; [main] gets there only
    with a limit that [askConfigurations] accepted, which is below 15. *)
Definition loop_turns (x : number) : nat :=
  match x with
  | Finite q => Z.to_nat (Qceiling q)
  | _ => 0
  end.

(** ** ask and validateAsk *)

(** What the operator types, one entry per line read. *)
Definition stdin := list string.

(** [answer || String(def)]. *)
Definition answer_or (answer def : string) : string :=
  if truthy answer then answer else def.

(** [ask(question, def)]: the next line, or the default for an empty line.
    [None]: the input ended and the question is never answered. The
    question only goes to the terminal. *)
Definition ask (def : string) (input : stdin) : option (string * stdin) :=
  match input with
  | [] => None
  | line :: input => Some (answer_or line def, input)
  end.

(** The [do ... while (!validator(answer))] loop; each turn reads one line. *)
Fixpoint validateAsk (def : string) (validator : string -> bool)
    (input : stdin) : option (string * stdin) :=
  match input with
  | [] => None
  | line :: input =>
      let answer := answer_or line def in
      if validator answer then Some (answer, input)
      else validateAsk def validator input
  end.

(** ** askConfigurations *)

Record configuration := {
  sitemapUrl : string;
  concurrencyLimit : string;
  requestDelay : string;
  traversalOrder : string
}.

Definition sitemapUrl_ok (input : string) : bool := startsWith input "http".

Definition concurrencyLimit_ok (input : string) : bool :=
  js_gt (Number input) (of_Z 0) && js_lt (Number input) (of_Z 15).

Definition requestDelay_ok (input : string) : bool :=
  js_gt (Number input) (of_Z 250).

Definition traversalOrder_ok (input : string) : bool :=
  includes ["random"; "sequential"] input.

Definition askConfigurations (input : stdin) : option (configuration * stdin) :=
  '(sitemapUrl, input) ← validateAsk "" sitemapUrl_ok input;
  '(concurrencyLimit, input) ← validateAsk "5" concurrencyLimit_ok input;
  '(requestDelay, input) ← validateAsk "1000" requestDelay_ok input;
  '(traversalOrder, input) ← validateAsk "sequential" traversalOrder_ok input;
  Some ({| sitemapUrl := sitemapUrl; concurrencyLimit := concurrencyLimit;
           requestDelay := requestDelay; traversalOrder := traversalOrder |},
        input).

(** A line that [validateAsk] does not take as the answer. *)
Definition rejects (def : string) (validator : string → bool) (line : string)
    : Prop :=
  validator (answer_or line def) = false.

(** A number that is an integer. *)
Definition is_integer (x : number) : Prop :=
  match x with
  | Finite q => ∃ n : Z, (q == inject_Z n)%Q
  | _ => False
  end.

(** A non-empty string of decimal digits, and the integer it writes. *)
Definition decimal (input : string) : bool :=
  truthy input &&
  forallb StringToNumber.is_digit (list_ascii_of_string input).

Definition decimal_value (input : string) : Z :=
  StringToNumber.digits_value (list_ascii_of_string input).

(** ** validateURL *)

Record URLStatus := { url : string; status : Z }.

(** The two module-level arrays [non200Urls] and [parsedUrls]. *)
Record results := {
  non200Urls : list URLStatus;
  parsedUrls : list URLStatus
}.

Definition push_non200 (entry : URLStatus) (r : results) : results :=
  {| non200Urls := non200Urls r ++ [entry]; parsedUrls := parsedUrls r |}.

Definition push_parsed (entry : URLStatus) (r : results) : results :=
  {| non200Urls := non200Urls r; parsedUrls := parsedUrls r ++ [entry] |}.

(** How [await axios.get(url)] settles: with a response, of which the
    source reads the status, or with an error, of which it reads
    [error.response?.status] ([None]: no response, or none with a status). *)
Inductive settled :=
  | Fulfilled (response_status : Z)
  | Rejected (error_response_status : option Z).

(** What comes of the GET on the wire: the response that ends the exchange,
    by its status code, or no response at all (the name does not resolve,
    the connection is refused, TLS fails, the time is out). *)
Inductive exchange :=
  | Response (status : Z)
  | NoResponse.

(** The [validateStatus] that axios applies when the caller gives none, as
    the source does: [status >= 200 && status < 300]. *)
Definition validateStatus (status : Z) : bool :=
  (200 <=? status)%Z && (status <? 300)%Z.

(** How axios settles [axios.get(url)] (its [settle]): a response is
    resolved when [!response.status || validateStatus(response.status)],
    and rejected otherwise with an error that carries the response; an
    exchange without a response is rejected with an error that has none.
    This is the library's code, not the repository's. *)
Definition axios_get (x : exchange) : settled :=
  match x with
  | Response status =>
      if (status =? 0)%Z || validateStatus status
      then Fulfilled status else Rejected (Some status)
  | NoResponse => Rejected None
  end.

(** How a call ends: with a value, or with an error it lets through. *)
Inductive completion (A : Type) :=
  | Returned (value : A)
  | Thrown (error : option Z).

Arguments Returned {A} value.
Arguments Thrown {A} error.

(** [x || d] on a status: [undefined] and [0] are falsy. *)
Definition or_else (x : option Z) (d : Z) : Z :=
  match x with
  | Some s => if (s =? 0)%Z then d else s
  | None => d
  end.

(** [validateURL(url)] from the point where the request has settled. *)
Definition validateURL (url : string) (get : settled) (r : results)
    : completion URLStatus * results :=
  let try_block :=
    match get with
    | Fulfilled response_status =>
        let r :=
          if negb (response_status =? 200)%Z
          then push_non200 {| url := url; status := response_status |} r
          else r in
        let r := push_parsed {| url := url; status := response_status |} r in
        (Returned {| url := url; status := response_status |}, r)
    | Rejected error => (Thrown error, r)
    end in
  match try_block with
  | (Thrown error, r) =>
      let status := or_else error 500 in
      let r := push_non200 {| url := url; status := status |} r in
      (Returned {| url := url; status := status |}, r)
  | (Returned value, r) => (Returned value, r)
  end.

(** ** saveResults *)

Section SaveResults.
(** [JSON.stringify(records, null, 2)]. *)
Variable stringify : list URLStatus -> string.

(** The file a name denotes: the path it resolves to from the working
    directory, through the links and in the letter case the volume keeps.
    Two names can denote one file. *)
Variable resolve : string -> string.

(** [fs.writeFileSync(filename, data)] on the files, each under the path
    that denotes it. The write is taken to succeed; one that throws ends
    [main] through its [catch]. *)
Definition saveToFile (filename data : string) (files : gmap string string)
    : gmap string string :=
  <[resolve filename := data]> files.

Definition saveResults (r : results) (files : gmap string string)
    (input : stdin) : option (gmap string string * stdin) :=
  '(saveResults, input) ← ask "Y" input;
  if String.eqb (toLowerCase saveResults) "y" then
    '(non200fileName, input) ←
      validateAsk "non200-urls.json" (fun _ => true) input;
    '(parsedFileName, input) ←
      validateAsk "parsed-urls.json" (fun _ => true) input;
    let files := saveToFile non200fileName (stringify (non200Urls r)) files in
    let files := saveToFile parsedFileName (stringify (parsedUrls r)) files in
    Some (files, input)
  else Some (files, input).
End SaveResults.

(** ** The worker pool of main *)

(** Where a worker stands between two turns of the event loop. *)
Inductive task :=
  | AwaitDelay (ms : number)         (* await delay(ms) *)
  | AwaitGet (url : string)          (* in validateURL: await axios.get(url) *)
  | AwaitValidate (result : URLStatus) (* await validateURL(url), settled *)
  | Failed                           (* the call of validateURL threw *)
  | Done.                            (* the while loop was left *)

(** The state [main] and its workers share, and the workers. [shifted] and
    [validated] are history: the URLs taken off the queue and the arguments
    of the calls of [validateURL], oldest first. The source has no such
    variables; they are only ever appended to and no transition reads them. *)
Record pool := {
  urlQueue : list string;
  processed : nat;
  statusCounts : gmap Z nat;
  records : results;
  isPaused : bool;
  workers : list task;
  shifted : list string;
  validated : list string
}.

(** One worker from the head of its [while] loop to its next [await] or to
    the end of the loop: the task it is left in, the queue, and the URLs it
    shifted. A falsy [url] (the empty string) skips the body, and the loop
    goes on at once. [nextUrls] and [updateProgress] only feed the terminal. *)
Fixpoint worker (isPaused : bool) (urlQueue : list string)
    : task * list string * list string :=
  match urlQueue with
  | [] => (Done, [], [])
  | url :: rest =>
      if isPaused then (AwaitDelay (of_Z 1000), urlQueue, [])
      else if truthy url then (AwaitGet url, rest, [url])
      else let '(t, q, taken) := worker isPaused rest in (t, q, url :: taken)
  end.

Definition called (t : task) : list string :=
  match t with
  | AwaitGet url => [url]
  | _ => []
  end.

(** The shared state after one run of [worker], and the task. *)
Definition run_worker (s : pool) : task * pool :=
  let '(t, q, taken) := worker (isPaused s) (urlQueue s) in
  (t, {| urlQueue := q; processed := processed s;
         statusCounts := statusCounts s; records := records s;
         isPaused := isPaused s; workers := workers s;
         shifted := shifted s ++ taken;
         validated := validated s ++ called t |}).

Definition set_task (i : nat) (t : task) (s : pool) : pool :=
  {| urlQueue := urlQueue s; processed := processed s;
     statusCounts := statusCounts s; records := records s;
     isPaused := isPaused s; workers := <[i := t]> (workers s);
     shifted := shifted s; validated := validated s |}.

(** [workers.push(worker())]: the call runs the worker to its first await. *)
Definition spawn (s : pool) : pool :=
  let '(t, s) := run_worker s in
  {| urlQueue := urlQueue s; processed := processed s;
     statusCounts := statusCounts s; records := records s;
     isPaused := isPaused s; workers := workers s ++ [t];
     shifted := shifted s; validated := validated s |}.

Fixpoint spawn_all (turns : nat) (s : pool) : pool :=
  match turns with
  | 0 => s
  | S turns => spawn_all turns (spawn s)
  end.

(** [main] from [const total = urls.length] to the end of the [for] loop. *)
Definition start (concurrencyLimit : string) (urls : list string) : pool :=
  spawn_all (loop_turns (Number concurrencyLimit))
    {| urlQueue := urls; processed := 0; statusCounts := ∅;
       records := {| non200Urls := []; parsedUrls := [] |};
       isPaused := false; workers := []; shifted := []; validated := [] |}.

(** [main] from the fetched URLs to the end of the [for] loop. *)
Definition main_pool (cfg : configuration) (urls : loc)
    (h : heap string) (g : rng) : pool :=
  let '(urlQueue, h, _) := enqueue (traversalOrder cfg) urls h g in
  start (concurrencyLimit cfg) (deref h urlQueue).

(** What the event loop does next. [Operator] is the pause control that the
    closing TODO of the source asks for; the source never sets [isPaused]. *)
Inductive event :=
  | Timer (i : nat)                 (* the delay worker [i] awaits is over *)
  | Settle (i : nat) (get : settled) (* the request of worker [i] settles *)
  | Resume (i : nat)                (* worker [i] goes on after validateURL *)
  | Operator (paused : bool).

Definition actor (e : event) : option nat :=
  match e with
  | Timer i | Settle i _ | Resume i => Some i
  | Operator _ => None
  end.

(** [statusCounts[k] = (statusCounts[k] || 0) + 1] *)
Definition count (statusCounts : gmap Z nat) (k : Z) : nat :=
  default 0 (statusCounts !! k).

Definition tally (k : Z) (statusCounts : gmap Z nat) : gmap Z nat :=
  <[k := count statusCounts k + 1]> statusCounts.

Definition step (requestDelay : string) (e : event) (s : pool) : option pool :=
  match e with
  | Timer i =>
      match workers s !! i with
      | Some (AwaitDelay _) =>
          let '(t, s) := run_worker s in Some (set_task i t s)
      | _ => None
      end
  | Settle i get =>
      match workers s !! i with
      | Some (AwaitGet url) =>
          let '(c, r) := validateURL url get (records s) in
          let t := match c with
                   | Returned result => AwaitValidate result
                   | Thrown _ => Failed
                   end in
          Some {| urlQueue := urlQueue s; processed := processed s;
                  statusCounts := statusCounts s; records := r;
                  isPaused := isPaused s; workers := <[i := t]> (workers s);
                  shifted := shifted s; validated := validated s |}
      | _ => None
      end
  | Resume i =>
      match workers s !! i with
      | Some (AwaitValidate result) =>
          Some {| urlQueue := urlQueue s; processed := processed s + 1;
                  statusCounts := tally (status result) (statusCounts s);
                  records := records s; isPaused := isPaused s;
                  workers := <[i := AwaitDelay (Number requestDelay)]> (workers s);
                  shifted := shifted s; validated := validated s |}
      | _ => None
      end
  | Operator paused =>
      Some {| urlQueue := urlQueue s; processed := processed s;
              statusCounts := statusCounts s; records := records s;
              isPaused := paused; workers := workers s;
              shifted := shifted s; validated := validated s |}
  end.

(** A run: the events in the order the event loop takes them. *)
Fixpoint run (requestDelay : string) (schedule : list event) (s : pool)
    : option pool :=
  match schedule with
  | [] => Some s
  | e :: schedule => step requestDelay e s ≫= run requestDelay schedule
  end.

Definition reachable (cfg : configuration) (urls : list string) (s : pool) : Prop :=
  ∃ schedule,
    run (requestDelay cfg) schedule (start (concurrencyLimit cfg) urls) = Some s.

(** [await Promise.all(workers)] is over. *)
Definition all_done (s : pool) : bool :=
  forallb (fun t => match t with Done => true | _ => false end) (workers s).

Definition histogram_total (statusCounts : gmap Z nat) : nat :=
  map_fold (fun _ n total => n + total) 0 statusCounts.

(** The requests under way: a worker between its call of [validateURL] and
    its [processed++]. *)
Definition in_flight (t : task) : nat :=
  match t with
  | AwaitGet _ | AwaitValidate _ => 1
  | _ => 0
  end.

Definition pending (ws : list task) : nat := sum_list_with in_flight ws.

(** What holds of the pool between any two turns of the event loop, for the
    URLs [urls] the queue started from. *)
Record pool_inv (urls : list string) (s : pool) : Prop := {
  inv_queue : shifted s ++ urlQueue s = urls;
  inv_validated : validated s = filter (fun u => truthy u = true) (shifted s);
  inv_processed : processed s + pending (workers s) = length (validated s);
  inv_total : histogram_total (statusCounts s) = processed s;
  inv_done : Done ∈ workers s → urlQueue s = [];
  inv_failed : Failed ∉ workers s
}.

(** How far a worker is from the head of its loop, for the count of the
    steps a run still needs. *)
Definition weight (t : task) : nat :=
  match t with
  | AwaitGet _ => 3
  | AwaitValidate _ => 2
  | AwaitDelay _ => 1
  | Failed | Done => 0
  end.

Definition remaining (s : pool) : nat :=
  sum_list_with weight (workers s) + 4 * length (urlQueue s).

(** ** Bookkeeping of a run *)

(** The URLs whose request is under way, and the records that wait for
    their worker to go on. *)
Definition requested (ws : list task) : list string := flat_map called ws.

Definition arrived (t : task) : list URLStatus :=
  match t with
  | AwaitValidate result => [result]
  | _ => []
  end.

Definition waiting (ws : list task) : list URLStatus := flat_map arrived ws.

(** The records of the two arrays with each observation once: a response
    that is not a 200 is in both arrays and is taken from [non200Urls]. *)
Definition reported (r : results) : list URLStatus :=
  non200Urls r ++ filter (fun entry => status entry = 200%Z) (parsedUrls r).

(** How many records carry the status [k]. *)
Definition occurrences (k : Z) (entries : list URLStatus) : nat :=
  length (filter (fun entry => status entry = k) entries).

(** The events of the workers, as opposed to the operator's. *)
Definition of_worker (e : event) : Prop := actor e ≠ None.

(** What ties the two result arrays and the histogram to the calls of
    [validateURL]: every call is under way or has its record, once; and a
    status is counted once its worker has gone on. *)
Definition records_inv (s : pool) : Prop :=
  validated s ≡ₚ requested (workers s) ++ map url (reported (records s)) ∧
  ∀ k, count (statusCounts s) k + occurrences k (waiting (workers s))
       = occurrences k (reported (records s)).

(** With one worker the requests settle in the order of the calls. *)
Definition in_call_order (s : pool) : Prop :=
  length (workers s) = 1 ∧
  ∃ settled_urls,
    validated s = settled_urls ++ requested (workers s) ∧
    map url (non200Urls (records s)) `sublist_of` settled_urls ∧
    map url (parsedUrls (records s)) `sublist_of` settled_urls.

(** The delays a worker awaits are the request delay and the second of a
    pause. *)
Definition paced (requestDelay : string) (t : task) : Prop :=
  ∀ ms, t = AwaitDelay ms → ms = Number requestDelay ∨ ms = of_Z 1000.

(** ** main *)

(** [main] from its first prompt to the return of [saveResults]. [fetched]
    is what [fetchSitemap] comes to: the URLs, or [None] when it throws,
    which ends [main] before any request. [schedule] is the order of the
    turns of the event loop while [main] awaits [Promise.all]; the result
    is [None] when the run never gets to its end: the input ends at a
    prompt, the schedule names a turn that is not enabled, or the workers
    are not all done at the end of the schedule.
    The sleeps and what goes to the terminal are left out. *)
Definition main (stringify : list URLStatus → string)
    (resolve : string → string) (input : stdin)
    (fetched : option (list string)) (g : rng) (schedule : list event)
    (files : gmap string string) : option (gmap string string * stdin) :=
  '(cfg, input) ← askConfigurations input;
  match fetched with
  | None => Some (files, input)
  | Some fetched =>
      let '(urls, h) := alloc ∅ fetched in
      s ← run (requestDelay cfg) schedule (main_pool cfg urls h g);
      if all_done s then saveResults stringify resolve (records s) files input
      else None
  end.

(** * Properties *)

(** ** shuffle and the queue of main *)

Section ShuffleFacts.
Context {T : Type}.
Implicit Types (h : heap T) (l : list T) (a : loc) (g : rng).

Lemma floor_scaled_lt r n : 0 < n → floor_scaled r n < n.
Proof.
  intros Hn. unfold floor_scaled.
  pose proof (below_one r) as Hr. apply N.ltb_lt in Hr.
  assert (numer r * N.of_nat n / N.pos (denom r) < N.of_nat n)%N; [|lia].
  apply N.Div0.div_lt_upper_bound. nia.
Qed.

Lemma array_get_Some h a l i : h !! a = Some l → array_get h a i = l !! i.
Proof. intros Ha. unfold array_get. by rewrite Ha. Qed.

Lemma array_set_insert h a l i v :
  h !! a = Some l → array_set h a i v = <[a := <[i := v]> l]> h.
Proof.
  intros Ha. apply map_eq. intros b. unfold array_set.
  destruct (decide (a = b)) as [<-|Hne].
  - by rewrite lookup_alter_eq, lookup_insert_eq, Ha.
  - by rewrite lookup_alter_ne, lookup_insert_ne.
Qed.

(** A turn of the loop below the length of the array reads two elements
    of it and swaps them; the array keeps its length. *)
Lemma shuffle_loop_turn h a l g currentIndex :
  h !! a = Some l → S currentIndex ≤ length l →
  ∃ temporaryValue picked,
    l !! currentIndex = Some temporaryValue ∧
    l !! floor_scaled (g 0) (S currentIndex) = Some picked ∧
    shuffle_loop (S currentIndex) a h g =
      shuffle_loop currentIndex a
        (<[a := <[floor_scaled (g 0) (S currentIndex) := temporaryValue]>
                  (<[currentIndex := picked]> l)]> h)
        (fun k => g (S k)) ∧
    length (<[floor_scaled (g 0) (S currentIndex) := temporaryValue]>
              (<[currentIndex := picked]> l)) = length l.
Proof.
  intros Ha Hlen.
  pose proof (floor_scaled_lt (g 0) (S currentIndex)) as Hr.
  destruct (lookup_lt_is_Some_2 l currentIndex) as [x Hx]; [lia|].
  destruct (lookup_lt_is_Some_2 l (floor_scaled (g 0) (S currentIndex)))
    as [y Hy]; [lia|].
  exists x, y. repeat split; [done|done| |by rewrite !length_insert].
  simpl. rewrite !(array_get_Some h a l), Hx, Hy by done.
  rewrite (array_set_insert h a l) by done.
  rewrite (array_set_insert _ a (<[currentIndex := y]> l))
    by apply lookup_insert_eq.
  by rewrite insert_insert_eq.
Qed.

(** The loop only writes to [newArray], and only swaps. *)
Lemma shuffle_loop_swaps n a h g l :
  h !! a = Some l →
  ∃ l', (shuffle_loop n a h g).1 = <[a := l']> h ∧ l' ≡ₚ l.
Proof.
  revert h g l. induction n as [|n IH]; intros h g l Ha; simpl.
  - exists l. by rewrite insert_id.
  - rewrite !(array_get_Some h a l) by done.
    destruct (l !! n) as [x|] eqn:Hx; [|by apply IH].
    destruct (l !! floor_scaled (g 0) (S n)) as [y|] eqn:Hy; [|by apply IH].
    rewrite (array_set_insert h a l) by done.
    rewrite (array_set_insert _ a (<[n := y]> l)) by apply lookup_insert_eq.
    rewrite insert_insert_eq.
    destruct (IH (<[a := <[floor_scaled (g 0) (S n) := x]> (<[n := y]> l)]> h)
                 (fun k => g (S k)) _ (lookup_insert_eq _ _ _))
      as (l' & -> & Hl').
    exists l'. split; [by rewrite insert_insert_eq|].
    rewrite Hl'. by apply Permutation_insert_swap.
Qed.

Lemma shuffle_result array h g :
  ∃ l', (shuffle array h g).1.2 = <[fresh (dom h) := l']> h ∧
        (shuffle array h g).1.1 = fresh (dom h) ∧
        l' ≡ₚ deref h array.
Proof.
  unfold shuffle, spread, alloc.
  set (b := fresh (dom h)). set (h1 := <[b := deref h array]> h).
  destruct (shuffle_loop_swaps (length (deref h1 b)) b h1 g (deref h array))
    as (l' & Hh & Hl'); [apply lookup_insert_eq|].
  destruct (shuffle_loop _ b h1 g) as [h2 g2]. simpl in *. subst h2.
  exists l'. unfold h1. by rewrite insert_insert_eq.
Qed.

Lemma fresh_unused h : h !! fresh (dom h) = None.
Proof. apply not_elem_of_dom, is_fresh. Qed.

(** No array that is alive changes, and a dead reference stays empty. *)
Lemma shuffle_deref array h g a :
  a ≠ (shuffle array h g).1.1 ∨ deref h array = [] →
  deref (shuffle array h g).1.2 a = deref h a.
Proof.
  destruct (shuffle_result array h g) as (l' & -> & -> & Hl').
  intros [Hne | Hnil]; unfold deref.
  - by rewrite lookup_insert_ne.
  - rewrite Hnil in Hl'. apply Permutation_nil_r in Hl' as ->.
    destruct (decide (fresh (dom h) = a)) as [<-|Hne].
    + by rewrite lookup_insert_eq, fresh_unused.
    + by rewrite lookup_insert_ne.
Qed.
End ShuffleFacts.

Lemma spread_deref {T} (h : heap T) (array : loc) :
  deref (spread h array).2 (spread h array).1 = deref h array.
Proof. unfold spread, alloc, deref at 1. simpl. by rewrite lookup_insert_eq. Qed.

Lemma shuffle_fresh {T} (array : loc) (h : heap T) (g : rng) :
  h !! (shuffle array h g).1.1 = None.
Proof.
  destruct (shuffle_result array h g) as (l' & _ & -> & _). apply fresh_unused.
Qed.

(** Whatever the order asked for, the queue holds the URLs as fetched. *)
Lemma enqueue_queue traversalOrder (urls : loc) (h : heap string) (g : rng) :
  deref (enqueue traversalOrder urls h g).1.2
        (enqueue traversalOrder urls h g).1.1 = deref h urls.
Proof.
  unfold enqueue. destruct (String.eqb traversalOrder "random").
  - pose proof (shuffle_deref urls h g urls) as Hs.
    pose proof (shuffle_fresh urls h g) as Hb.
    destruct (shuffle urls h g) as [[b h1] g1]. simpl in Hs, Hb.
    pose proof (spread_deref h1 urls) as Hq.
    destruct (spread h1 urls) as [q h2]. simpl in *. rewrite Hq. apply Hs.
    destruct (h !! urls) as [l|] eqn:Hl.
    + left. intros ->. congruence.
    + right. unfold deref. by rewrite Hl.
  - pose proof (spread_deref h urls) as Hq.
    by destruct (spread h urls) as [q h2].
Qed.

(** C9. For every input array, [shuffle] never mutates its argument: the
    array it returns is a new one (no array that was alive before the call),
    its elements are a permutation of the elements of the argument, and
    after the call the argument, like every other array that was alive,
    holds exactly the elements it held before. *)
Theorem shuffle_leaves_argument {T} (array : loc) (h : heap T) (g : rng)
    (l : list T) (newArray : loc) (h' : heap T) (g' : rng) :
  h !! array = Some l →
  shuffle array h g = (newArray, h', g') →
  h !! newArray = None ∧
  h' !! array = Some l ∧
  (∀ a, a ≠ newArray → h' !! a = h !! a) ∧
  ∃ l', h' !! newArray = Some l' ∧ l' ≡ₚ l.
Proof.
  intros Hl Hs.
  destruct (shuffle_result array h g) as (l' & Hh & Hb & Hl').
  rewrite Hs in Hh, Hb. simpl in Hh, Hb. subst newArray h'.
  assert (array ≠ fresh (dom h)) as Hne.
  { intros ->. by rewrite fresh_unused in Hl. }
  split; [apply fresh_unused|].
  split; [by rewrite lookup_insert_ne|].
  split; [intros a Ha; by rewrite lookup_insert_ne|].
  exists l'. split; [apply lookup_insert_eq|].
  unfold deref in Hl'. by rewrite Hl in Hl'.
Qed.

Lemma shuffle_leaves_argument_witness :
  let h : heap string := {[ 0 := ["a"; "b"; "c"] ]} in
  let out := shuffle 0 h (fun _ => half_real) in
  h !! out.1.1 = None ∧
  out.1.2 !! 0 = Some ["a"; "b"; "c"] ∧
  (∀ a, a ≠ out.1.1 → out.1.2 !! a = h !! a) ∧
  ∃ l', out.1.2 !! out.1.1 = Some l' ∧ l' ≡ₚ ["a"; "b"; "c"].
Proof.
  intros h out.
  apply (shuffle_leaves_argument 0 h (fun _ => half_real)
           ["a"; "b"; "c"] out.1.1 out.1.2 out.2).
  - vm_compute. reflexivity.
  - subst out. destruct (shuffle 0 h _) as [[b h'] g']. reflexivity.
Defined.

(** ** validateURL *)

(** Whatever way the request settles, [validateURL] returns a record. *)
Lemma validateURL_returns u get r :
  ∃ code, (validateURL u get r).1 = Returned {| url := u; status := code |}.
Proof. destruct get as [code | carried]; simpl; eauto. Qed.

(** An error of axios never carries the status 0: a response with a falsy
    status is resolved. *)
Lemma axios_get_rejected x carried :
  axios_get x = Rejected carried →
  or_else carried 500 = default 500%Z carried ∧
  (x = NoResponse ∧ carried = None ∨
   ∃ code, x = Response code ∧ carried = Some code ∧ code ≠ 0%Z ∧
           validateStatus code = false).
Proof.
  destruct x as [code|]; simpl; [|intros [= <-]; split; [done|by left]].
  destruct (Z.eqb_spec code 0) as [->|Hne]; [done|]. simpl.
  destruct (validateStatus code) eqn:Hv; [done|]. intros [= <-]. split.
  - simpl. by destruct (Z.eqb_spec code 0).
  - right. by exists code.
Qed.

(** C2. When the GET fails, [validateURL] catches the error and returns a
    record whose status is the status carried on the error's response when
    there is one, and 500 otherwise: 500 for every failure of the transport,
    which leaves no response, and the status of the response where axios
    rejected one. The record is appended to [non200Urls] only, [parsedUrls]
    is as before, and no error reaches the caller. *)
Theorem validateURL_rejected u (x : exchange) (carried : option Z) r :
  axios_get x = Rejected carried →
  let code := default 500%Z carried in
  validateURL u (axios_get x) r =
    (Returned {| url := u; status := code |},
     {| non200Urls := non200Urls r ++ [{| url := u; status := code |}];
        parsedUrls := parsedUrls r |}) ∧
  (x = NoResponse → code = 500%Z) ∧
  (∀ response_status, x = Response response_status → code = response_status).
Proof.
  intros Hx code. destruct (axios_get_rejected x carried Hx) as [Hor Hcases].
  rewrite Hx. unfold validateURL. simpl. rewrite Hor. fold code.
  split; [done|]. unfold code.
  destruct Hcases as [[-> ->]|(c & -> & -> & _)]; simpl; split; try done.
  by intros ? [= ->].
Qed.

Lemma validateURL_rejected_witness :
  let r := {| non200Urls := []; parsedUrls := [] |} in
  validateURL "https://a.test/" (axios_get NoResponse) r =
    (Returned {| url := "https://a.test/"; status := 500 |},
     {| non200Urls := [{| url := "https://a.test/"; status := 500 |}];
        parsedUrls := [] |}) ∧
  validateURL "https://b.test/" (axios_get (Response 503)) r =
    (Returned {| url := "https://b.test/"; status := 503 |},
     {| non200Urls := [{| url := "https://b.test/"; status := 503 |}];
        parsedUrls := [] |}).
Proof.
  intros r. split.
  - exact (proj1 (validateURL_rejected "https://a.test/" NoResponse None r
                    eq_refl)).
  - exact (proj1 (validateURL_rejected "https://b.test/" (Response 503)
                    (Some 503%Z) r eq_refl)).
Defined.

(** C4 as stated fails for a response that is not a 2xx: axios rejects the
    GET that completes with a 404, and the record, with the status of the
    response, goes to [non200Urls] and not to [parsedUrls]. *)
Lemma not_found_is_not_parsed :
  let r := {| non200Urls := []; parsedUrls := [] |} in
  let out := validateURL "https://a.test/" (axios_get (Response 404)) r in
  out.1 = Returned {| url := "https://a.test/"; status := 404 |} ∧
  non200Urls out.2 = [{| url := "https://a.test/"; status := 404 |}] ∧
  parsedUrls out.2 = [] ∧
  {| url := "https://a.test/"; status := 404 |} ∉ parsedUrls out.2.
Proof.
  repeat split; try reflexivity. simpl. apply not_elem_of_nil.
Qed.

(** C4, amended. When the GET completes with a response, [validateURL]
    returns a record with the status of the response. For a status from 200
    to 299 it appends the record to [parsedUrls], and to [non200Urls]
    exactly when the status is not 200; so the responses 201 and 204 are
    recorded in [non200Urls]. For any other status of a response axios
    rejects the GET, and the record is appended to [non200Urls] only. *)
Theorem validateURL_response u (code : Z) r :
  let entry := {| url := u; status := code |} in
  let out := validateURL u (axios_get (Response code)) r in
  out.1 = Returned entry ∧
  ((200 ≤ code < 300)%Z →
   out.2 = {| non200Urls := if decide (code = 200%Z) then non200Urls r
                            else non200Urls r ++ [entry];
              parsedUrls := parsedUrls r ++ [entry] |}) ∧
  (¬ (200 ≤ code < 300)%Z → code ≠ 0%Z →
   out.2 = {| non200Urls := non200Urls r ++ [entry];
              parsedUrls := parsedUrls r |}) ∧
  non200Urls (validateURL u (axios_get (Response 201)) r).2
    = non200Urls r ++ [{| url := u; status := 201 |}] ∧
  non200Urls (validateURL u (axios_get (Response 204)) r).2
    = non200Urls r ++ [{| url := u; status := 204 |}].
Proof.
  intros entry out. unfold out, axios_get, validateStatus.
  destruct (Z.eqb_spec code 0) as [->|Hne]; simpl.
  - repeat split; try done; lia.
  - destruct (Z.leb_spec 200 code), (Z.ltb_spec code 300); simpl;
      unfold or_else; destruct (Z.eqb_spec code 0); try done;
      destruct (Z.eqb_spec code 200), (decide (code = 200%Z));
      repeat split; try done; try lia.
Qed.

(** ** saveResults *)

Lemma lower_ascii_y c : lower_ascii c = "y"%char → c = "y"%char ∨ c = "Y"%char.
Proof.
  destruct c as [[] [] [] [] [] [] [] []]; vm_compute; intros H;
    first [discriminate H | by left | by right].
Qed.

Lemma toLowerCase_y s : toLowerCase s = "y" ↔ s = "y" ∨ s = "Y".
Proof.
  split.
  - destruct s as [|c [|c' s]]; simpl; intros H; try discriminate H.
    injection H as H. apply lower_ascii_y in H as [-> | ->]; auto.
  - by intros [-> | ->].
Qed.

Lemma answer_or_spec line def :
  answer_or line def = if decide (line = "") then def else line.
Proof.
  unfold answer_or, truthy.
  destruct (String.eqb_spec line ""), (decide (line = "")); done.
Qed.

Lemma validateAsk_any def line input :
  validateAsk def (fun _ => true) (line :: input)
    = Some (answer_or line def, input).
Proof. reflexivity. Qed.

(** C10. The result files are written exactly when the answer to the save
    prompt, lower-cased, is the single character y: an empty line (for
    which the default Y stands), y and Y save, under the two file names
    asked for next; every other answer, yes included, writes neither file
    and leaves the files as they were. *)
Theorem saveResults_only_on_y (stringify : list URLStatus → string)
    (resolve : string → string)
    (r : results) (files : gmap string string) (line : string) :
  let answer := answer_or line "Y" in
  (toLowerCase answer = "y" ↔ line = "" ∨ line = "y" ∨ line = "Y") ∧
  (∀ name1 name2 input,
     saveResults stringify resolve r files (line :: name1 :: name2 :: input) =
       if decide (toLowerCase answer = "y")
       then Some (<[resolve (answer_or name2 "parsed-urls.json")
                      := stringify (parsedUrls r)]>
                    (<[resolve (answer_or name1 "non200-urls.json")
                         := stringify (non200Urls r)]>
                       files),
                  input)
       else Some (files, name1 :: name2 :: input)) ∧
  (∀ input,
     toLowerCase answer ≠ "y" →
     saveResults stringify resolve r files (line :: input)
       = Some (files, input)) ∧
  (∀ input,
     saveResults stringify resolve r files ("yes" :: input)
       = Some (files, input)).
Proof.
  intros answer. split; [|split; [|split]].
  - unfold answer. rewrite toLowerCase_y, answer_or_spec.
    destruct (decide (line = "")) as [->|Hne].
    + split; intros _; [by left | by right].
    + split; [intros [?|?]; auto | intros [?|[?|?]]; [done | auto | auto]].
  - intros name1 name2 input. unfold saveResults, ask. simpl. fold answer.
    destruct (String.eqb_spec (toLowerCase answer) "y"),
      (decide (toLowerCase answer = "y")); done.
  - intros input Hn. unfold saveResults, ask. simpl. fold answer.
    by destruct (String.eqb_spec (toLowerCase answer) "y").
  - done.
Qed.

(** ** The prompts *)

Section ValidateAsk.
Variables (def : string) (validator : string → bool).

Implicit Types (line answer : string) (input rest rejected : stdin).
Local Abbreviation refused := (rejects def validator).

(** The loop asks again after every rejected line and stops at the first
    line that passes. *)
Lemma validateAsk_reprompts rejected line input :
  Forall refused rejected →
  validator (answer_or line def) = true →
  validateAsk def validator (rejected ++ line :: input)
    = Some (answer_or line def, input).
Proof.
  intros Hrej Hok. induction Hrej as [|bad rejected Hbad _ IH]; simpl.
  - by rewrite Hok.
  - unfold rejects in Hbad. by rewrite Hbad.
Qed.

(** An answer that comes back passed the validator, after rejected lines only. *)
Lemma validateAsk_Some input answer rest :
  validateAsk def validator input = Some (answer, rest) →
  validator answer = true ∧
  ∃ rejected line,
    input = rejected ++ line :: rest ∧ answer = answer_or line def ∧
    Forall refused rejected.
Proof.
  induction input as [|line input IH]; simpl; [done|].
  destruct (validator (answer_or line def)) eqn:Hv.
  - intros [= <- <-]. split; [done|]. by exists [], line.
  - intros (Hok & rejected & line' & -> & -> & Hrej)%IH. split; [done|].
    exists (line :: rejected), line'. by repeat constructor.
Qed.

(** No answer comes back only when the input ends on rejected lines. *)
Lemma validateAsk_None input :
  validateAsk def validator input = None ↔ Forall refused input.
Proof.
  induction input as [|line input IH]; simpl; [by split|].
  destruct (validator (answer_or line def)) eqn:Hv.
  - split; [done|]. intros Hall. apply Forall_cons in Hall as [Hl _].
    unfold rejects in Hl. congruence.
  - rewrite IH. split; [by constructor|]. by intros [_ ?]%Forall_cons.
Qed.
End ValidateAsk.

Lemma prefix_app p s : String.prefix p s = true ↔ ∃ rest, s = (p +:+ rest)%string.
Proof.
  revert s. induction p as [|a p IH]; intros s.
  - destruct s; simpl; split; eauto.
  - destruct s as [|b s]; simpl; [split; [done | by intros [? ?]]|].
    destruct (ascii_dec a b) as [<-|Hne].
    + rewrite IH. split; intros [rest Hr]; exists rest; [by rewrite Hr|].
      by injection Hr.
    + split; [done|]. intros [rest Hr]. injection Hr as ? ?. congruence.
Qed.

Lemma sitemapUrl_ok_spec input :
  sitemapUrl_ok input = true ↔ ∃ rest, input = ("http" +:+ rest)%string.
Proof. apply prefix_app. Qed.

Lemma traversalOrder_ok_spec input :
  traversalOrder_ok input = true ↔ input = "sequential" ∨ input = "random".
Proof.
  unfold traversalOrder_ok, includes. simpl.
  rewrite !orb_true_iff, !String.eqb_eq. intuition discriminate.
Qed.

(** ** Doubles *)

Section DoubleFacts.
Import Double.
Local Open Scope Z_scope.

Lemma floor_log2_integer n : 0 < n → floor_log2 n 1 = Z.log2 n.
Proof.
  intros Hn. unfold floor_log2, scaled.
  change (Z.log2 1) with 0. rewrite Z.sub_0_r.
  pose proof (Z.log2_nonneg n) as H0. pose proof (Z.log2_spec n Hn) as [Hl _].
  destruct (Z.leb_spec 0 (Z.log2 n)); [|lia].
  destruct (Z.ltb_spec n (1 * 2 ^ Z.log2 n)); lia.
Qed.

Lemma nearest_even_integer n : nearest_even n 1 = n.
Proof. unfold nearest_even. by rewrite Z.mod_1_r, Z.div_1_r. Qed.

Lemma nearest_even_ge n d : 0 < d → n / d ≤ nearest_even n d.
Proof.
  intros Hd. unfold nearest_even.
  destruct (2 * (n mod d) <? d); [lia|].
  destruct (d <? 2 * (n mod d)); [lia|]. destruct (Z.even (n / d)); lia.
Qed.

Lemma Qred_inject_Z n : Qred (inject_Z n) = inject_Z n.
Proof.
  unfold Qred, inject_Z.
  pose proof (Z.ggcd_gcd n 1) as Hg.
  pose proof (Z.ggcd_correct_divisors n 1) as Hd.
  destruct (Z.ggcd n 1) as [g [r1 r2]]. simpl in Hg, Hd.
  rewrite Z.gcd_1_r in Hg. subst g. destruct Hd as [H1 H2].
  replace r1 with n by lia. replace r2 with 1 by lia. reflexivity.
Qed.

(** An integer below [2 ^ 53] is a double. *)
Lemma round_small_integer n :
  0 < n < 2 ^ 53 → round_positive n 1 = of_Z n.
Proof.
  intros [Hn Hlt]. unfold round_positive, of_Z.
  rewrite (floor_log2_integer n Hn).
  pose proof (Z.log2_nonneg n) as H0.
  assert (Z.log2 n < 53) as H53 by (apply Z.log2_lt_pow2; lia).
  rewrite Z.max_l by lia.
  set (e := Z.log2 n - 52).
  assert (scaled e n 1 = (n * 2 ^ (- e), 1)) as ->.
  { unfold scaled. destruct (Z.leb_spec 0 e); [|reflexivity].
    replace e with 0 by lia. simpl. f_equal. lia. }
  rewrite nearest_even_integer.
  assert (times_pow2 (n * 2 ^ (- e)) e == inject_Z n)%Q as Hv.
  { unfold times_pow2. destruct (Z.leb_spec 0 e).
    - replace e with 0 by lia. simpl. rewrite !Z.mul_1_r. reflexivity.
    - unfold Qeq. simpl. rewrite Z2Pos.id by (apply Z.pow_pos_nonneg; lia). lia. }
  assert (Qle_bool (inject_Z (2 ^ 1024)) (times_pow2 (n * 2 ^ (- e)) e) = false)
    as ->.
  { apply not_true_is_false. rewrite Qle_bool_iff, Hv, <- Zle_Qle.
    assert (2 ^ 53 < 2 ^ 1024) by (apply Z.pow_lt_mono_r; lia). lia. }
  f_equal. rewrite (Qred_complete _ _ Hv). apply Qred_inject_Z.
Qed.

(** An integer from [2 ^ 53] on rounds to a double that is not below
    [2 ^ 53], or to the positive infinity. *)
Lemma round_large_integer n :
  2 ^ 53 ≤ n →
  match round_positive n 1 with
  | Finite d => (inject_Z (2 ^ 53) <= d)%Q
  | Infinity negative => negative = false
  | NaN => False
  end.
Proof.
  intros Hn. assert (0 < n) as Hpos by lia. unfold round_positive.
  rewrite (floor_log2_integer n Hpos).
  assert (53 ≤ Z.log2 n) as H53 by (apply Z.log2_le_pow2; lia).
  rewrite Z.max_l by lia.
  set (e := Z.log2 n - 52).
  assert (scaled e n 1 = (n, 2 ^ e)) as ->.
  { unfold scaled. destruct (Z.leb_spec 0 e); [|lia]. f_equal. lia. }
  destruct (Qle_bool _ _); [reflexivity|].
  rewrite Qred_correct. unfold times_pow2.
  destruct (Z.leb_spec 0 e); [|lia]. rewrite <- Zle_Qle.
  assert (0 < 2 ^ e) as He by (apply Z.pow_pos_nonneg; lia).
  pose proof (nearest_even_ge n (2 ^ e) He) as Hm.
  assert (2 ^ 52 ≤ n / 2 ^ e) as Hq.
  { apply Z.div_le_lower_bound; [lia|].
    rewrite <- Z.pow_add_r by lia. replace (e + 52) with (Z.log2 n) by lia.
    apply Z.log2_spec. lia. }
  assert (2 ^ 53 = 2 ^ 52 * 2 ^ 1) as -> by reflexivity.
  apply Z.mul_le_mono_nonneg; try lia.
  apply (Z.pow_le_mono_r 2 1 e); lia.
Qed.

(** How the double of an integer compares with a small integer: as the
    integer does. *)
Lemma round_integer_gt (n b : Z) :
  0 ≤ n → 0 ≤ b < 2 ^ 53 →
  js_gt (round (inject_Z n)) (of_Z b) = (b <? n) ∧
  js_lt (round (inject_Z n)) (of_Z b) = (n <? b).
Proof.
  intros Hn Hb. unfold round. simpl Qnum. simpl Qden.
  destruct n as [|a|a]; [| |lia].
  - unfold js_lt, js_gt, of_Z, Qle_bool. simpl. rewrite !Z.mul_1_r.
    split; [destruct (Z.leb_spec 0 b), (Z.ltb_spec b 0); simpl; lia|].
    destruct (Z.leb_spec b 0), (Z.ltb_spec 0 b); simpl; lia.
  - destruct (Z_lt_le_dec (Z.pos a) (2 ^ 53)) as [Hsmall|Hlarge].
    + rewrite round_small_integer by lia.
      unfold js_lt, js_gt, of_Z, Qle_bool. simpl. rewrite !Z.mul_1_r.
      split; symmetry; apply Z.ltb_antisym.
    + pose proof (round_large_integer _ Hlarge) as Hr.
      destruct (round_positive (Z.pos a) 1) as [|negative|d]; [done| |].
      * subst negative. simpl. split; symmetry; [apply Z.ltb_lt|apply Z.ltb_ge]; lia.
      * unfold js_lt, js_gt, of_Z.
        assert (inject_Z b < d)%Q as Hlt.
        { eapply Qlt_le_trans; [|exact Hr]. rewrite <- Zlt_Qlt. lia. }
        split.
        -- replace (Qle_bool d (inject_Z b)) with false.
           ++ symmetry. apply Z.ltb_lt. lia.
           ++ symmetry. apply not_true_is_false. rewrite Qle_bool_iff.
              by apply Qlt_not_le.
        -- replace (Qle_bool (inject_Z b) d) with true.
           ++ symmetry. apply Z.ltb_ge. lia.
           ++ symmetry. apply Qle_bool_iff. by apply Qlt_le_weak.
Qed.
End DoubleFacts.

(** ** Number on integer literals *)

Section DecimalLiterals.
Import StringToNumber.

Local Ltac digit_cases c H :=
  destruct c as [[] [] [] [] [] [] [] []]; try discriminate H.

Lemma digit_byte c : is_digit c = true → (48 ≤ N_of_ascii c ≤ 57)%N.
Proof. intros H. digit_cases c H; simpl; lia. Qed.

Lemma digit_not_space c : is_digit c = true → is_space c = false.
Proof. intros H. digit_cases c H; reflexivity. Qed.

Lemma is_space2_bytes c1 c2 :
  is_space2 c1 c2 = true → (128 ≤ N_of_ascii c1 ∧ 128 ≤ N_of_ascii c2)%N.
Proof.
  unfold is_space2. rewrite andb_true_iff, !N.eqb_eq. lia.
Qed.

Lemma is_space3_bytes c1 c2 c3 :
  is_space3 c1 c2 c3 = true →
  (128 ≤ N_of_ascii c1 ∧ 128 ≤ N_of_ascii c2 ∧ 128 ≤ N_of_ascii c3)%N.
Proof.
  unfold is_space3.
  rewrite !orb_true_iff, !andb_true_iff, !orb_true_iff, !andb_true_iff,
    !N.eqb_eq, !N.leb_le. lia.
Qed.

(** A string of digits neither starts nor ends with white space. *)
Lemma drop_spaces_digits backwards l :
  forallb is_digit l = true → drop_spaces backwards l = l.
Proof.
  destruct l as [|c1 [|c2 [|c3 l]]]; simpl; [done| | |].
  - intros [H1 _]%andb_true_iff. by rewrite digit_not_space.
  - intros [H1 [H2 _]%andb_true_iff]%andb_true_iff.
    rewrite digit_not_space by done.
    apply digit_byte in H1, H2.
    destruct backwards;
      (destruct (is_space2 _ _) eqn:Hs; [apply is_space2_bytes in Hs; lia|done]).
  - intros [H1 [H2 [H3 _]%andb_true_iff]%andb_true_iff]%andb_true_iff.
    rewrite digit_not_space by done.
    apply digit_byte in H1, H2, H3.
    destruct backwards;
      (destruct (is_space2 _ _) eqn:Hs; [apply is_space2_bytes in Hs; lia|]);
      (destruct (is_space3 _ _ _) eqn:Ht; [apply is_space3_bytes in Ht; lia|done]).
Qed.

Lemma forallb_rev {A} (f : A → bool) l : forallb f (rev l) = forallb f l.
Proof.
  induction l as [|x l IH]; simpl; [done|].
  rewrite forallb_app, IH. simpl. destruct (f x), (forallb f l); done.
Qed.

Lemma trim_digits l : forallb is_digit l = true → trim l = l.
Proof.
  intros H. unfold trim. rewrite (drop_spaces_digits false l H).
  rewrite drop_spaces_digits by (by rewrite forallb_rev). apply rev_involutive.
Qed.

Lemma span_digits_all l : forallb is_digit l = true → span_digits l = (l, []).
Proof.
  induction l as [|c l IH]; simpl; [done|].
  intros [Hc Hl]%andb_true_iff. by rewrite Hc, IH.
Qed.

Lemma non_decimal_digits l :
  forallb is_digit l = true → NonDecimalIntegerLiteral l = None.
Proof.
  destruct l as [|c [|p l]]; simpl.
  - done.
  - intros H. rewrite andb_true_r in H. digit_cases c H; reflexivity.
  - intros [Hc [Hp _]%andb_true_iff]%andb_true_iff.
    digit_cases p Hp; digit_cases c Hc; reflexivity.
Qed.

Lemma unsigned_digits c l :
  forallb is_digit (c :: l) = true →
  StrUnsignedDecimalLiteral (c :: l)
    = Finite (inject_Z (digits_value (c :: l)) * 1).
Proof.
  intros H. unfold StrUnsignedDecimalLiteral.
  rewrite (span_digits_all _ H).
  replace (String.eqb (string_of_list_ascii (c :: l)) "Infinity") with false.
  - simpl. by rewrite app_nil_r.
  - simpl in H. apply andb_true_iff in H as [Hc _].
    digit_cases c Hc; reflexivity.
Qed.

Lemma numeric_digits c l :
  forallb is_digit (c :: l) = true →
  StrNumericLiteral (c :: l) = Finite (inject_Z (digits_value (c :: l)) * 1).
Proof.
  intros H. unfold StrNumericLiteral.
  rewrite (non_decimal_digits _ H), <- (unsigned_digits c l H).
  simpl in H. apply andb_true_iff in H as [Hc _].
  digit_cases c Hc; reflexivity.
Qed.

Lemma digits_value_nonneg l : (0 ≤ digits_value l)%Z.
Proof.
  unfold digits_value.
  assert (∀ acc, (0 ≤ acc)%Z →
            (0 ≤ fold_left (fun acc c => acc * 10 + digit_value c) l acc)%Z)
    as H; [|by apply H].
  induction l as [|c l IH]; intros acc Hacc; simpl; [done|].
  apply IH. unfold digit_value. lia.
Qed.

(** [Number] of a string of digits is the double of the integer the digits
    write. *)
Lemma Number_decimal input :
  decimal input = true →
  Number input = Double.round (inject_Z (decimal_value input)).
Proof.
  unfold decimal, decimal_value, Number, parse.
  intros [Hne Hd]%andb_true_iff. rewrite (trim_digits _ Hd).
  destruct input as [|c s]; [done|]. simpl list_ascii_of_string in *.
  cbv iota. rewrite (numeric_digits _ _ Hd). unfold Double.round. simpl Qnum. simpl Qden.
  by rewrite Z.mul_1_r.
Qed.

Lemma decimal_value_nonneg input : (0 ≤ decimal_value input)%Z.
Proof. apply digits_value_nonneg. Qed.

Lemma concurrencyLimit_ok_decimal input :
  decimal input = true →
  concurrencyLimit_ok input = true ↔ (1 ≤ decimal_value input ≤ 14)%Z.
Proof.
  intros Hd. unfold concurrencyLimit_ok. rewrite (Number_decimal _ Hd).
  pose proof (decimal_value_nonneg input) as Hn.
  destruct (round_integer_gt (decimal_value input) 0 Hn) as [-> _]; [done|].
  destruct (round_integer_gt (decimal_value input) 15 Hn) as [_ ->]; [done|].
  rewrite andb_true_iff, !Z.ltb_lt. lia.
Qed.

Lemma requestDelay_ok_decimal input :
  decimal input = true →
  requestDelay_ok input = true ↔ (250 < decimal_value input)%Z.
Proof.
  intros Hd. unfold requestDelay_ok. rewrite (Number_decimal _ Hd).
  pose proof (decimal_value_nonneg input) as Hn.
  destruct (round_integer_gt (decimal_value input) 250 Hn) as [-> _]; [done|].
  by rewrite Z.ltb_lt.
Qed.

(** The limit a string of digits writes, once accepted, is that integer. *)
Lemma Number_accepted_decimal input :
  decimal input = true → concurrencyLimit_ok input = true →
  Number input = of_Z (decimal_value input).
Proof.
  intros Hd Hok. apply (concurrencyLimit_ok_decimal _ Hd) in Hok.
  rewrite (Number_decimal _ Hd). unfold Double.round. simpl Qnum. simpl Qden.
  destruct (decimal_value input) as [|a|a] eqn:Hv; [lia| |lia].
  apply round_small_integer. lia.
Qed.
End DecimalLiterals.

Lemma askConfigurations_valid input cfg rest :
  askConfigurations input = Some (cfg, rest) →
  sitemapUrl_ok (sitemapUrl cfg) = true ∧
  concurrencyLimit_ok (concurrencyLimit cfg) = true ∧
  requestDelay_ok (requestDelay cfg) = true ∧
  traversalOrder_ok (traversalOrder cfg) = true.
Proof.
  unfold askConfigurations. intros H.
  destruct (validateAsk "" sitemapUrl_ok input) as [[a1 i1]|] eqn:H1;
    [|discriminate H]. simpl in H.
  destruct (validateAsk "5" concurrencyLimit_ok i1) as [[a2 i2]|] eqn:H2;
    [|discriminate H]. simpl in H.
  destruct (validateAsk "1000" requestDelay_ok i2) as [[a3 i3]|] eqn:H3;
    [|discriminate H]. simpl in H.
  destruct (validateAsk "sequential" traversalOrder_ok i3) as [[a4 i4]|] eqn:H4;
    [|discriminate H]. simpl in H.
  injection H as <- <-. simpl.
  apply validateAsk_Some in H1 as [? _], H2 as [? _], H3 as [? _], H4 as [? _].
  done.
Qed.



(** ** The worker pool *)

(** The cases of the task of worker [i]; those that are closed at once go. *)
Ltac task_cases s i :=
  let H := fresh "Hi" in
  destruct (workers s !! i) as [[| | | |]|] eqn:H; try done.

Section PoolFacts.
Implicit Types (s : pool) (ws : list task) (t : task) (q : list string).

Local Abbreviation kept := (filter (fun u => truthy u = true)).

(** One run of the loop: the URLs it shifts come off the head of the
    queue in order, the truthy one among them, if any, is the last and is
    the one handed to [validateURL]; the loop ends only on an empty queue,
    and under the pause flag it touches nothing. *)
Lemma worker_spec p q t q' taken :
  worker p q = (t, q', taken) →
  taken ++ q' = q ∧
  called t = kept taken ∧
  in_flight t = length (called t) ∧
  (t = Done → q' = []) ∧
  (q = [] → t = Done) ∧
  (p = true → q ≠ [] → t = AwaitDelay (of_Z 1000) ∧ q' = q ∧ taken = []) ∧
  (p = true → taken = [] ∧ q' = q) ∧
  t ≠ Failed ∧
  (p = false → weight t + 4 * length q' ≤ 4 * length q).
Proof.
  revert t q' taken. induction q as [|u q IH]; intros t q' taken; simpl.
  - intros [= <- <- <-]. done.
  - destruct p; [intros [= <- <- <-]; done|].
    destruct (truthy u) eqn:Hu.
    + intros [= <- <- <-]. simpl. rewrite filter_cons_True by done.
      repeat split; try done. lia.
    + destruct (worker false q) as [[t0 q0] taken0].
      intros [= <- <- <-].
      destruct (IH _ _ _ eq_refl) as (Hq & Hc & Hf & Hd & _ & _ & _ & Hnf & Hw).
      rewrite filter_cons_False by congruence. simpl. rewrite Hq.
      repeat split; try done. specialize (Hw eq_refl). lia.
Qed.

Lemma sum_list_with_insert (f : task → nat) ws i old t :
  ws !! i = Some old →
  sum_list_with f (<[i := t]> ws) + f old = sum_list_with f ws + f t.
Proof.
  revert i. induction ws as [|w ws IH]; intros [|i]; simpl; try done.
  - intros [= ->]. lia.
  - intros H. specialize (IH _ H). lia.
Qed.

Lemma pending_insert ws i old t :
  ws !! i = Some old →
  pending (<[i := t]> ws) + in_flight old = pending ws + in_flight t.
Proof. apply sum_list_with_insert. Qed.

Lemma pending_snoc ws t : pending (ws ++ [t]) = pending ws + in_flight t.
Proof. unfold pending. rewrite sum_list_with_app. simpl. lia. Qed.

Lemma task_insert ws i t t' : t' ∈ <[i := t]> ws → t = t' ∨ t' ∈ ws.
Proof.
  intros [j Hj]%list_elem_of_lookup.
  apply list_lookup_insert_Some in Hj as [(_ & -> & _)|[_ Hj]]; [by left|].
  right. apply list_elem_of_lookup. eauto.
Qed.

Lemma histogram_total_tally k (m : gmap Z nat) :
  histogram_total (tally k m) = histogram_total m + 1.
Proof.
  unfold histogram_total, tally, count.
  destruct (m !! k) as [n|] eqn:Hk; simpl.
  - rewrite <- insert_delete_eq.
    rewrite map_fold_insert_L; [|intros; lia|apply lookup_delete_eq].
    rewrite (map_fold_delete_L _ _ k n m); [lia|intros; lia|done].
  - rewrite map_fold_insert_L; [lia|intros; lia|done].
Qed.

Lemma count_tally k j (m : gmap Z nat) :
  count (tally k m) j = if decide (k = j) then count m j + 1 else count m j.
Proof.
  unfold tally, count at 1. rewrite lookup_insert.
  destruct (decide (k = j)) as [->|]; done.
Qed.
End PoolFacts.

Section PoolInvariant.
Variable urls : list string.
Implicit Types (s : pool) (t : task).

Lemma run_worker_inv s t s1 :
  pool_inv urls s → run_worker s = (t, s1) →
  shifted s1 ++ urlQueue s1 = urls ∧
  validated s1 = filter (fun u => truthy u = true) (shifted s1) ∧
  length (validated s1) = length (validated s) + in_flight t ∧
  (t = Done ∨ urlQueue s = [] → urlQueue s1 = []) ∧
  t ≠ Failed ∧
  processed s1 = processed s ∧ statusCounts s1 = statusCounts s ∧
  workers s1 = workers s.
Proof.
  intros [Hq Hv Hp Ht Hd Hf]. unfold run_worker.
  destruct (worker (isPaused s) (urlQueue s)) as [[t' q'] taken] eqn:Hw.
  intros [= <- <-]. simpl.
  destruct (worker_spec _ _ _ _ _ Hw)
    as (Hq' & Hc & Hfl & Hdone & _ & _ & _ & Hnf & _).
  split; [by rewrite <- app_assoc, Hq'|].
  split; [by rewrite filter_app, <- Hv, Hc|].
  split; [rewrite length_app; lia|].
  split; [|done].
  intros [->|Hnil]; [by apply Hdone|].
  rewrite Hnil in Hq'. by apply app_eq_nil in Hq' as [_ ->].
Qed.

Lemma timer_inv s i ms t s1 :
  pool_inv urls s → workers s !! i = Some (AwaitDelay ms) →
  run_worker s = (t, s1) → pool_inv urls (set_task i t s1).
Proof.
  intros Hinv Hi Hr.
  destruct (run_worker_inv _ _ _ Hinv Hr)
    as (Hq & Hv & Hl & Hd & Hnf & Hp & Hc & Hw).
  destruct Hinv as [_ _ Hp0 Ht0 Hd0 Hf0].
  constructor; simpl; try done.
  - pose proof (pending_insert (workers s) i _ t Hi) as Hpi.
    rewrite Hw, Hp, Hl. simpl in Hpi. lia.
  - by rewrite Hc, Hp.
  - rewrite Hw. intros [->|Hin]%task_insert; apply Hd; auto.
  - rewrite Hw. by intros [?|Hin]%task_insert.
Qed.

Lemma spawn_inv s : pool_inv urls s → pool_inv urls (spawn s).
Proof.
  intros Hinv. unfold spawn. destruct (run_worker s) as [t s1] eqn:Hr.
  destruct (run_worker_inv _ _ _ Hinv Hr)
    as (Hq & Hv & Hl & Hd & Hnf & Hp & Hc & Hw).
  destruct Hinv as [_ _ Hp0 Ht0 Hd0 Hf0].
  constructor; simpl; try done.
  - rewrite pending_snoc, Hw, Hp, Hl. lia.
  - by rewrite Hc, Hp.
  - rewrite Hw. intros [Hin|Hin%list_elem_of_singleton]%elem_of_app;
      apply Hd; auto.
  - rewrite Hw. by intros [Hin|Hin%list_elem_of_singleton]%elem_of_app.
Qed.

Lemma step_inv requestDelay e s s' :
  pool_inv urls s → step requestDelay e s = Some s' → pool_inv urls s'.
Proof.
  intros Hinv. destruct e as [i | i get | i | paused]; simpl.
  - destruct (workers s !! i) as [[ms| | | |]|] eqn:Hi; try done.
    destruct (run_worker s) as [t s1] eqn:Hr. intros [= <-].
    by eapply timer_inv.
  - destruct (workers s !! i) as [[|u| | |]|] eqn:Hi; try done.
    destruct Hinv as [Hq Hv Hp Ht Hd Hf].
    assert (∃ t, (let '(c, r) := validateURL u get (records s) in
                  match c with
                  | Returned result => AwaitValidate result
                  | Thrown _ => Failed
                  end) = t ∧ in_flight t = 1 ∧ t ≠ Done ∧ t ≠ Failed)
      as (t & Ht' & Hfl & Hnd & Hnf).
    { destruct get; simpl; eauto. }
    destruct (validateURL u get (records s)) as [c r]. intros [= <-].
    constructor; simpl; try done.
    + pose proof (pending_insert (workers s) i _ t Hi) as Hpi.
      rewrite Ht'. simpl in Hpi. lia.
    + rewrite Ht'. intros [?|Hin]%task_insert; [done|auto].
    + rewrite Ht'. by intros [?|Hin]%task_insert.
  - destruct (workers s !! i) as [[| |result| |]|] eqn:Hi; try done.
    destruct Hinv as [Hq Hv Hp Ht Hd Hf]. intros [= <-].
    constructor; simpl; try done.
    + pose proof (pending_insert (workers s) i _
                    (AwaitDelay (Number requestDelay)) Hi) as Hpi.
      simpl in Hpi. lia.
    + rewrite histogram_total_tally. lia.
    + intros [?|Hin]%task_insert; [done|auto].
    + by intros [?|Hin]%task_insert.
  - destruct Hinv. intros [= <-]. by constructor.
Qed.

Lemma run_inv requestDelay schedule s s' :
  pool_inv urls s → run requestDelay schedule s = Some s' → pool_inv urls s'.
Proof.
  revert s. induction schedule as [|e schedule IH]; intros s Hinv; simpl.
  - by intros [= <-].
  - destruct (step requestDelay e s) as [s1|] eqn:He; [|done]. simpl.
    apply IH. by eapply step_inv.
Qed.

Lemma spawn_all_inv turns s : pool_inv urls s → pool_inv urls (spawn_all turns s).
Proof.
  revert s. induction turns as [|n IH]; intros s Hinv; simpl; [done|].
  by apply IH, spawn_inv.
Qed.

Lemma start_inv concurrencyLimit : pool_inv urls (start concurrencyLimit urls).
Proof.
  apply spawn_all_inv. constructor; simpl; try done.
  - by intros ?%elem_of_nil.
  - by intros ?%elem_of_nil.
Qed.

Lemma reachable_inv cfg s : reachable cfg urls s → pool_inv urls s.
Proof. intros [schedule Hrun]. eapply run_inv; [apply start_inv|done]. Qed.
End PoolInvariant.

(** C1. The queue the workers consume is the fetched URL list in its
    fetched order for every traversal order, [random] included: main calls
    [shuffle] and drops the array it returns, so the workers shift the URLs
    in the order of the sitemap. With the URLs a, b and [Math.random]
    returning 0, [shuffle] returns b, a and the queue is a, b. *)
Theorem enqueue_ignores_traversalOrder :
  (∀ traversalOrder (urls : loc) (h : heap string) (g : rng),
     deref (enqueue traversalOrder urls h g).1.2
           (enqueue traversalOrder urls h g).1.1 = deref h urls) ∧
  (∀ cfg (urls : loc) (h : heap string) (g : rng),
     shifted (main_pool cfg urls h g) ++ urlQueue (main_pool cfg urls h g)
       = deref h urls) ∧
  (let h : heap string := {[ 0 := ["a"; "b"] ]} in
   let g : rng := fun _ => zero_real in
   deref (shuffle 0 h g).1.2 (shuffle 0 h g).1.1 = ["b"; "a"] ∧
   deref (enqueue "random" 0 h g).1.2 (enqueue "random" 0 h g).1.1
     = ["a"; "b"]).
Proof.
  split; [apply enqueue_queue|]. split.
  - intros cfg urls h g. unfold main_pool.
    pose proof (enqueue_queue (traversalOrder cfg) urls h g) as Hq.
    destruct (enqueue (traversalOrder cfg) urls h g) as [[q h'] g'].
    simpl in Hq. rewrite <- Hq. apply start_inv.
  - split; vm_compute; reflexivity.
Qed.

Lemma spawn_all_workers turns s :
  length (workers (spawn_all turns s)) = length (workers s) + turns.
Proof.
  revert s. induction turns as [|n IH]; intros s; simpl; [lia|].
  rewrite IH. unfold spawn, run_worker.
  destruct (worker (isPaused s) (urlQueue s)) as [[t q] taken]. simpl.
  rewrite length_app. simpl. lia.
Qed.

Lemma step_workers requestDelay e s s' :
  step requestDelay e s = Some s' → length (workers s') = length (workers s).
Proof.
  destruct e as [i | i get | i | paused]; simpl.
  - task_cases s i.
    unfold run_worker.
    destruct (worker (isPaused s) (urlQueue s)) as [[t q] taken].
    intros [= <-]. simpl. apply length_insert.
  - task_cases s i.
    destruct (validateURL _ _ _). intros [= <-]. simpl. apply length_insert.
  - task_cases s i.
    intros [= <-]. simpl. apply length_insert.
  - by intros [= <-].
Qed.

Lemma run_workers requestDelay schedule s s' :
  run requestDelay schedule s = Some s' → length (workers s') = length (workers s).
Proof.
  revert s. induction schedule as [|e schedule IH]; intros s; simpl.
  - by intros [= <-].
  - destruct (step requestDelay e s) as [s1|] eqn:He; [|done]. simpl.
    intros Hr. rewrite (IH _ Hr). by eapply step_workers.
Qed.

(** A limit the prompt accepted starts at least one worker. *)
Lemma accepted_limit_spawns input :
  concurrencyLimit_ok input = true → 0 < loop_turns (Number input).
Proof.
  unfold concurrencyLimit_ok, js_lt.
  destruct (Number input) as [|negative|q]; simpl; [done|by destruct negative|].
  intros [Hpos _]%andb_true_iff. apply negb_true_iff in Hpos.
  assert (¬ (q <= inject_Z 0)%Q) as Hq.
  { intros Hle. apply Qle_bool_iff in Hle. congruence. }
  pose proof (Qle_ceiling q) as Hc.
  assert (0 < Qceiling q)%Z; [|lia].
  apply Z.lt_nge. intros Hle. apply Hq.
  apply Qle_trans with (inject_Z (Qceiling q)); [exact Hc|].
  by rewrite <- Zle_Qle.
Qed.

Lemma all_done_Done s : all_done s = true → workers s ≠ [] → Done ∈ workers s.
Proof.
  unfold all_done. destruct (workers s) as [|t ws]; [done|]. simpl.
  intros [Ht _]%andb_true_iff _. destruct t; try done. by left.
Qed.

Lemma all_done_pending s : all_done s = true → pending (workers s) = 0.
Proof.
  unfold all_done, pending. induction (workers s) as [|t ws IH]; simpl; [done|].
  intros [Ht Hws]%andb_true_iff. rewrite (IH Hws). by destruct t.
Qed.

Lemma busy_worker s :
  all_done s = false → ∃ i t, workers s !! i = Some t ∧ t ≠ Done.
Proof.
  unfold all_done. induction (workers s) as [|t ws IH]; simpl; [done|].
  destruct t; try (by exists 0; eexists).
  intros (i & t & Hi & Ht)%IH. by exists (S i), t.
Qed.

(** While a worker is not done and the pool is not paused, some step is
    enabled that brings the run closer to its end. *)
Lemma step_progress requestDelay s :
  isPaused s = false → Failed ∉ workers s → all_done s = false →
  ∃ e s1, step requestDelay e s = Some s1 ∧ isPaused s1 = false ∧
          (Failed ∉ workers s1) ∧ remaining s1 < remaining s.
Proof.
  intros Hp Hf (i & t & Hi & Ht)%busy_worker. unfold remaining.
  destruct t as [ms|u|result| |]; [| | | |done].
  - exists (Timer i). simpl. rewrite Hi. unfold run_worker.
    destruct (worker (isPaused s) (urlQueue s)) as [[t q] taken] eqn:Hw.
    eexists. split; [done|]. simpl.
    destruct (worker_spec _ _ _ _ _ Hw) as (_ & _ & _ & _ & _ & _ & _ & Hnf & Hwt).
    specialize (Hwt Hp).
    pose proof (sum_list_with_insert weight (workers s) i _ t Hi) as Hs.
    simpl in Hs. repeat split; [done| |lia].
    by intros [?|?]%task_insert.
  - exists (Settle i (Fulfilled 200)). simpl. rewrite Hi.
    eexists. split; [done|]. simpl.
    pose proof (sum_list_with_insert weight (workers s) i _
                  (AwaitValidate {| url := u; status := 200 |}) Hi) as Hs.
    simpl in Hs. repeat split; [done| |lia].
    by intros [?|?]%task_insert.
  - exists (Resume i). simpl. rewrite Hi.
    eexists. split; [done|]. simpl.
    pose proof (sum_list_with_insert weight (workers s) i _
                  (AwaitDelay (Number requestDelay)) Hi) as Hs.
    simpl in Hs. repeat split; [done| |lia].
    by intros [?|?]%task_insert.
  - destruct Hf. apply list_elem_of_lookup. eauto.
Qed.

(** Every run can be brought to its end: once the pool is not paused, some
    schedule gets all workers done. *)
Lemma run_can_finish requestDelay s :
  isPaused s = false → Failed ∉ workers s →
  ∃ schedule s', run requestDelay schedule s = Some s' ∧ all_done s' = true.
Proof.
  remember (remaining s) as n eqn:Hn. revert s Hn.
  induction n as [n IH] using lt_wf_ind. intros s -> Hp Hf.
  destruct (all_done s) eqn:Hd; [by exists [], s|].
  destruct (step_progress requestDelay s Hp Hf Hd) as (e & s1 & He & Hp1 & Hf1 & Hlt).
  destruct (IH _ Hlt s1 eq_refl Hp1 Hf1) as (schedule & s' & Hrun & Hdone).
  exists (e :: schedule), s'. simpl. rewrite He. done.
Qed.

(** C3 as stated fails on a sitemap with an empty location: the empty
    string is shifted off the queue and, being falsy, never reaches
    [validateURL]; the run is over with [processed] at 0 for one URL. *)
Lemma empty_url_is_skipped :
  let cfg := {| sitemapUrl := "http://a.test/sitemap.xml";
                concurrencyLimit := "1"; requestDelay := "300";
                traversalOrder := "sequential" |} in
  let s := start "1" [""] in
  reachable cfg [""] s ∧ all_done s = true ∧ urlQueue s = [] ∧
  validated s = [] ∧ processed s = 0 ∧ processed s ≠ length [""].
Proof.
  intros cfg s. split; [exists []; reflexivity|].
  repeat (split; [vm_compute; reflexivity|]). vm_compute. discriminate.
Qed.

(** C3, amended. In every run, whatever the interleaving, the URLs leave
    the queue in input order, each once, and the non-empty ones among them
    are the arguments of the calls of [validateURL], each once and in that
    order; an empty-string URL is shifted and skipped by [if (url)]. When
    all workers have finished, the queue is empty, every non-empty input
    URL has been validated exactly once, and [processed] is the number of
    non-empty input URLs. From every point of a run the workers can all
    finish. *)
Theorem run_validates_each_url_once cfg urls s :
  concurrencyLimit_ok (concurrencyLimit cfg) = true →
  reachable cfg urls s →
  shifted s ++ urlQueue s = urls ∧
  validated s = filter (fun u => truthy u = true) (shifted s) ∧
  (all_done s = true →
     urlQueue s = [] ∧ shifted s = urls ∧
     validated s = filter (fun u => truthy u = true) urls ∧
     processed s = length (filter (fun u => truthy u = true) urls)) ∧
  ∃ schedule s',
    run (requestDelay cfg) (Operator false :: schedule) s = Some s' ∧
    all_done s' = true.
Proof.
  intros Hok Hreach.
  pose proof (reachable_inv urls cfg s Hreach) as [Hq Hv Hp Ht Hd Hf].
  split; [done|]. split; [done|]. split.
  - intros Hdone.
    assert (urlQueue s = []) as Hnil.
    { apply Hd, all_done_Done; [done|].
      destruct Hreach as [schedule Hrun]. apply run_workers in Hrun.
      unfold start in Hrun. rewrite spawn_all_workers in Hrun. simpl in Hrun.
      pose proof (accepted_limit_spawns _ Hok).
      intros Hw. rewrite Hw in Hrun. simpl in Hrun. lia. }
    rewrite Hnil, app_nil_r in Hq. subst urls.
    rewrite all_done_pending in Hp by done. rewrite <- Hv.
    repeat split; [done|lia].
  - simpl. by apply run_can_finish.
Qed.

Lemma run_validates_each_url_once_witness :
  let cfg := {| sitemapUrl := "http://a.test/sitemap.xml";
                concurrencyLimit := "1"; requestDelay := "300";
                traversalOrder := "sequential" |} in
  let urls := ["https://a.test/"; ""; "https://b.test/"] in
  let schedule := [Settle 0 (Fulfilled 200); Resume 0; Timer 0;
                   Settle 0 (Rejected (Some 404%Z)); Resume 0; Timer 0] in
  ∃ s, run "300" schedule (start "1" urls) = Some s ∧
       all_done s = true ∧
       validated s = ["https://a.test/"; "https://b.test/"] ∧
       processed s = 2.
Proof.
  intros cfg urls schedule. eexists. split; [vm_compute; reflexivity|].
  split; [reflexivity|].
  match goal with |- validated ?s = _ ∧ _ =>
    destruct (run_validates_each_url_once cfg urls s) as (_ & _ & Hdone & _);
      [vm_compute; reflexivity | exists schedule; vm_compute; reflexivity |];
    destruct (Hdone eq_refl) as (_ & _ & Hv & Hp)
  end.
  split; [exact Hv | exact Hp].
Defined.

(** A step leaves the histogram alone or counts one more observation. *)
Lemma step_histogram requestDelay e s s' :
  step requestDelay e s = Some s' →
  (statusCounts s' = statusCounts s ∧ processed s' = processed s) ∨
  (∃ i result,
     e = Resume i ∧ workers s !! i = Some (AwaitValidate result) ∧
     statusCounts s' = tally (status result) (statusCounts s) ∧
     processed s' = processed s + 1).
Proof.
  destruct e as [i | i get | i | paused]; simpl.
  - task_cases s i.
    unfold run_worker.
    destruct (worker (isPaused s) (urlQueue s)) as [[t q] taken].
    intros [= <-]. by left.
  - task_cases s i.
    destruct (validateURL _ _ _). intros [= <-]. by left.
  - destruct (workers s !! i) as [[| |result| |]|] eqn:Hi; try done.
    intros [= <-]. right. by exists i, result.
  - intros [= <-]. by left.
Qed.

(** C5. At every point of a run the counts of the status histogram add up
    to [processed]; a step either leaves both as they are or, when a worker
    goes on after [validateURL], adds one to [processed] and one to the
    entry of the observed status, an entry that is missing counting as 0.
    No entry is ever decreased. *)
Theorem histogram_total_is_processed cfg urls s :
  reachable cfg urls s →
  histogram_total (statusCounts s) = processed s ∧
  ∀ e s', step (requestDelay cfg) e s = Some s' →
    histogram_total (statusCounts s') = processed s' ∧
    ((statusCounts s' = statusCounts s ∧ processed s' = processed s) ∨
     (∃ k, statusCounts s' = <[k := count (statusCounts s) k + 1]> (statusCounts s) ∧
           processed s' = processed s + 1)) ∧
    ∀ k, count (statusCounts s) k ≤ count (statusCounts s') k
           ≤ count (statusCounts s) k + 1.
Proof.
  intros Hreach. pose proof (reachable_inv urls cfg s Hreach) as Hinv.
  split; [apply Hinv|]. intros e s' Hstep.
  split; [eapply inv_total, step_inv; eauto|].
  destruct (step_histogram _ _ _ _ Hstep)
    as [[-> ->]|(i & result & _ & _ & -> & ->)].
  - split; [by left|]. intros k. lia.
  - split; [right; by exists (status result)|].
    intros k. rewrite count_tally. destruct (decide (status result = k)); lia.
Qed.

Lemma histogram_total_is_processed_witness :
  let cfg := {| sitemapUrl := "http://a.test/sitemap.xml";
                concurrencyLimit := "2"; requestDelay := "300";
                traversalOrder := "sequential" |} in
  let urls := ["https://a.test/"; "https://b.test/"; "https://c.test/"] in
  let schedule := [Settle 1 (Rejected None); Settle 0 (Fulfilled 200);
                   Resume 0; Resume 1; Timer 1; Settle 1 (Rejected None)] in
  ∃ s s', run "300" schedule (start "2" urls) = Some s ∧
          step "300" (Resume 1) s = Some s' ∧
          histogram_total (statusCounts s) = 2 ∧ processed s = 2 ∧
          count (statusCounts s) 500 = 1 ∧
          histogram_total (statusCounts s') = 3 ∧ processed s' = 3 ∧
          count (statusCounts s') 500 = 2.
Proof.
  intros cfg urls schedule. eexists. eexists.
  split; [vm_compute; reflexivity|]. split; [vm_compute; reflexivity|].
  match goal with |- histogram_total (statusCounts ?s) = _ ∧ _ =>
    destruct (histogram_total_is_processed cfg urls s) as (Ht & Hstep);
      [exists schedule; vm_compute; reflexivity|]
  end.
  match goal with |- _ ∧ _ ∧ _ ∧ histogram_total (statusCounts ?s') = _ ∧ _ =>
    destruct (Hstep (Resume 1) s') as (Ht' & _ & _); [vm_compute; reflexivity|]
  end.
  repeat split; first [exact Ht | exact Ht' | vm_compute; reflexivity].
Defined.

(** Under the pause flag a run of the loop on a non-empty queue only puts
    the worker to sleep. *)
Lemma run_worker_paused s :
  isPaused s = true → urlQueue s ≠ [] →
  run_worker s = (AwaitDelay (of_Z 1000), s).
Proof.
  intros Hp Hq. unfold run_worker.
  destruct s as [q n c r p ws sh v]. simpl in *. subst p.
  destruct q as [|u q]; [done|]. simpl. by rewrite !app_nil_r.
Qed.

Lemma run_worker_empty s : urlQueue s = [] → run_worker s = (Done, s).
Proof.
  intros Hq. unfold run_worker.
  destruct s as [q n c r p ws sh v]. simpl in *. subst q. simpl.
  by rewrite !app_nil_r.
Qed.

(** While the flag is set no step touches the queue or calls [validateURL]. *)
Lemma step_paused requestDelay e s s' :
  isPaused s = true → step requestDelay e s = Some s' →
  urlQueue s' = urlQueue s ∧ shifted s' = shifted s ∧
  validated s' = validated s.
Proof.
  intros Hp. destruct e as [i | i get | i | paused]; simpl.
  - task_cases s i.
    destruct (decide (urlQueue s = [])) as [Hq|Hq].
    + rewrite run_worker_empty by done. by intros [= <-].
    + rewrite run_worker_paused by done. by intros [= <-].
  - task_cases s i.
    destruct (validateURL _ _ _). by intros [= <-].
  - task_cases s i. by intros [= <-].
  - by intros [= <-].
Qed.

(** C6. While [isPaused] is true no worker shifts a URL off the queue and
    no worker calls [validateURL]: every step leaves the queue and the
    calls made so far as they are. A worker that finds the flag set (the
    queue not being empty) changes nothing, awaits [delay(1000)] and after
    it runs the loop from its head again. Whatever the operator does to the
    flag and whenever, the URLs shifted so far followed by the queue are
    the input, and the calls of [validateURL] are the non-empty shifted
    URLs, each once: no URL is lost or duplicated. *)
Theorem pause_halts_the_queue cfg urls s :
  reachable cfg urls s →
  (shifted s ++ urlQueue s = urls ∧
   validated s = filter (fun u => truthy u = true) (shifted s)) ∧
  (isPaused s = true →
   ∀ e s', step (requestDelay cfg) e s = Some s' →
     urlQueue s' = urlQueue s ∧ shifted s' = shifted s ∧
     validated s' = validated s ∧
     ∀ i, e = Timer i → urlQueue s ≠ [] →
       s' = set_task i (AwaitDelay (of_Z 1000)) s ∧
       step (requestDelay cfg) (Timer i) s'
         = Some (set_task i (run_worker s').1 (run_worker s').2)).
Proof.
  intros Hreach. pose proof (reachable_inv urls cfg s Hreach) as Hinv.
  split; [split; apply Hinv|]. intros Hp e s' Hstep.
  destruct (step_paused _ _ _ _ Hp Hstep) as (Hq & Hs & Hv).
  repeat (split; [done|]). intros i -> Hne. simpl in Hstep.
  destruct (workers s !! i) as [[ms| | | |]|] eqn:Hi; try done.
  rewrite run_worker_paused in Hstep by done. injection Hstep as <-.
  split; [done|]. simpl.
  rewrite list_lookup_insert_eq by (by eapply lookup_lt_Some).
  by destruct (run_worker _).
Qed.

Lemma pause_halts_the_queue_witness :
  let cfg := {| sitemapUrl := "http://a.test/sitemap.xml";
                concurrencyLimit := "1"; requestDelay := "300";
                traversalOrder := "sequential" |} in
  let urls := ["https://a.test/"; "https://b.test/"] in
  let schedule := [Operator true; Settle 0 (Fulfilled 200); Resume 0; Timer 0] in
  ∃ s s', run "300" schedule (start "1" urls) = Some s ∧
          step "300" (Timer 0) s = Some s' ∧
          isPaused s = true ∧
          urlQueue s = ["https://b.test/"] ∧ urlQueue s' = urlQueue s ∧
          validated s' = ["https://a.test/"] ∧
          workers s' = [AwaitDelay (of_Z 1000)].
Proof.
  intros cfg urls schedule. eexists. eexists.
  split; [vm_compute; reflexivity|]. split; [vm_compute; reflexivity|].
  match goal with |- isPaused ?s = _ ∧ _ ∧ urlQueue ?s' = _ ∧ _ =>
    destruct (pause_halts_the_queue cfg urls s) as (_ & Hpaused);
      [exists schedule; vm_compute; reflexivity|];
    destruct (Hpaused eq_refl (Timer 0) s') as (Hq & _ & Hv & _);
      [vm_compute; reflexivity|]
  end.
  repeat split; first [exact Hq | exact Hv | vm_compute; reflexivity].
Defined.

(** A worker that is done takes no further step, and no step of another
    worker changes that. *)
Lemma step_keeps_Done requestDelay e s s' i :
  workers s !! i = Some Done → step requestDelay e s = Some s' →
  actor e ≠ Some i ∧ workers s' !! i = Some Done.
Proof.
  intros Hi. destruct e as [j | j get | j | paused]; simpl.
  - task_cases s j.
    unfold run_worker.
    destruct (worker (isPaused s) (urlQueue s)) as [[t q] taken].
    intros [= <-]. simpl.
    assert (j ≠ i) by (intros ->; congruence).
    split; [congruence|]. by rewrite list_lookup_insert_ne.
  - task_cases s j.
    destruct (validateURL _ _ _). intros [= <-]. simpl.
    assert (j ≠ i) by (intros ->; congruence).
    split; [congruence|]. by rewrite list_lookup_insert_ne.
  - task_cases s j.
    intros [= <-]. simpl.
    assert (j ≠ i) by (intros ->; congruence).
    split; [congruence|]. by rewrite list_lookup_insert_ne.
  - by intros [= <-].
Qed.

(** A worker only becomes done by finding the queue empty. *)
Lemma step_to_Done requestDelay e s s' i :
  step requestDelay e s = Some s' →
  workers s !! i ≠ Some Done → workers s' !! i = Some Done →
  e = Timer i ∧ urlQueue s' = [].
Proof.
  destruct e as [j | j get | j | paused]; simpl.
  - task_cases s j.
    unfold run_worker.
    destruct (worker (isPaused s) (urlQueue s)) as [[t q] taken] eqn:Hw.
    intros [= <-]. simpl. intros Hnd Hd.
    apply list_lookup_insert_Some in Hd as [(-> & -> & _)|[_ ?]]; [|done].
    split; [done|]. by apply (worker_spec _ _ _ _ _ Hw).
  - task_cases s j.
    destruct get; simpl; intros [= <-]; simpl; intros Hnd Hd;
      by apply list_lookup_insert_Some in Hd as [(_ & ? & _)|[_ ?]].
  - task_cases s j.
    intros [= <-]. simpl. intros Hnd Hd.
    by apply list_lookup_insert_Some in Hd as [(_ & ? & _)|[_ ?]].
  - by intros [= <-].
Qed.

(** C7. A worker that finds the queue empty leaves its loop: it is done
    and has changed nothing else. From then on, along every continuation of
    the run, it stays done and no step is one of its own: it never shifts a
    URL, calls [validateURL] or updates the shared state again. A worker
    is done only through finding the queue empty. *)
Theorem done_is_permanent requestDelay s i schedule s' :
  workers s !! i = Some Done →
  run requestDelay schedule s = Some s' →
  workers s' !! i = Some Done ∧
  Forall (fun e => actor e ≠ Some i) schedule ∧
  (∀ s0 ms, workers s0 !! i = Some (AwaitDelay ms) → urlQueue s0 = [] →
     step requestDelay (Timer i) s0 = Some (set_task i Done s0)) ∧
  (∀ s0 e s1, step requestDelay e s0 = Some s1 →
     workers s0 !! i ≠ Some Done → workers s1 !! i = Some Done →
     e = Timer i ∧ urlQueue s1 = []).
Proof.
  intros Hi Hrun.
  assert (workers s' !! i = Some Done ∧
          Forall (fun e => actor e ≠ Some i) schedule) as [Hd Hs].
  { revert s Hi Hrun. induction schedule as [|e schedule IH]; intros s Hi; simpl.
    - intros [= <-]. by split.
    - destruct (step requestDelay e s) as [s1|] eqn:He; [|done]. simpl.
      destruct (step_keeps_Done _ _ _ _ _ Hi He) as [Ha Hi1].
      intros Hrun. destruct (IH _ Hi1 Hrun). split; [done|by constructor]. }
  repeat (split; [done|]). split.
  - intros s0 ms Hms Hq. simpl. rewrite Hms. by rewrite run_worker_empty.
  - intros s0 e s1. apply step_to_Done.
Qed.

Lemma done_is_permanent_witness :
  let urls := ["https://a.test/"] in
  let schedule := [Settle 0 (Fulfilled 200); Resume 0; Timer 0] in
  workers (start "2" urls) !! 1 = Some Done ∧
  ∃ s', run "300" schedule (start "2" urls) = Some s' ∧
        workers s' !! 1 = Some Done ∧
        Forall (fun e => actor e ≠ Some 1) schedule.
Proof.
  intros urls schedule. split; [vm_compute; reflexivity|].
  eexists. split; [vm_compute; reflexivity|].
  match goal with |- workers ?s' !! _ = _ ∧ _ =>
    destruct (done_is_permanent "300" (start "2" urls) 1 schedule s')
      as (Hd & Hs & _); [vm_compute; reflexivity | vm_compute; reflexivity |]
  end.
  split; [exact Hd | exact Hs].
Defined.

(** * Further properties of the code *)

(** ** shuffle *)

Section ShuffleMore.
Context {T : Type}.
Implicit Types (h : heap T) (l : list T) (a : loc) (g : rng).

Lemma shuffle_loop_rng n a h g k : (shuffle_loop n a h g).2 k = g (n + k).
Proof.
  revert h g k. induction n as [|n IH]; intros h g k; simpl; [done|].
  destruct (array_get h a n), (array_get h a (floor_scaled (g 0) (S n)));
    rewrite IH; f_equal; lia.
Qed.

(** [shuffle] calls [Math.random] once per element of the array, not more
    and not less, whatever the values drawn: the calls that follow get the
    results from number [length] on. The array returned has the length of
    the argument. *)
Theorem shuffle_draws_once_per_element (array : loc) h g l
    (newArray : loc) (h' : heap T) (g' : rng) :
  h !! array = Some l →
  shuffle array h g = (newArray, h', g') →
  (∀ k, g' k = g (length l + k)) ∧
  length (deref h' newArray) = length l.
Proof.
  intros Hl Hs. split.
  - intros k. unfold shuffle, spread, alloc in Hs.
    set (b := fresh (dom h)) in *. set (h1 := <[b := deref h array]> h) in *.
    pose proof (shuffle_loop_rng (length (deref h1 b)) b h1 g k) as Hk.
    destruct (shuffle_loop _ b h1 g) as [h2 g2]. injection Hs as <- <- <-.
    simpl in Hk. rewrite Hk. unfold h1, deref at 1.
    rewrite lookup_insert_eq. simpl. unfold deref. by rewrite Hl.
  - destruct (shuffle_result array h g) as (l' & Hh & Hb & Hl').
    rewrite Hs in Hh, Hb. simpl in Hh, Hb. subst newArray h'.
    unfold deref at 1. rewrite lookup_insert_eq. simpl.
    rewrite Hl'. unfold deref. by rewrite Hl.
Qed.

End ShuffleMore.

Lemma shuffle_draws_once_per_element_witness :
  let h : heap string := {[ 0 := ["a"; "b"; "c"] ]} in
  let g : rng := fun k => if Nat.even k then half_real else zero_real in
  let out := shuffle 0 h g in
  (∀ k, out.2 k = g (3 + k)) ∧ length (deref out.1.2 out.1.1) = 3.
Proof.
  intros h g out.
  apply (shuffle_draws_once_per_element 0 h g ["a"; "b"; "c"]
           out.1.1 out.1.2 out.2).
  - vm_compute. reflexivity.
  - subst out. destruct (shuffle 0 h g) as [[b h'] g']. reflexivity.
Defined.

(** ** The permutations shuffle reaches *)

Section DyadicFacts.
Import Double.
Local Open Scope Z_scope.

Lemma floor_log2_dyadic a k :
  0 < a → 0 ≤ k → floor_log2 a (2 ^ k) = Z.log2 a - k.
Proof.
  intros Ha Hk. unfold floor_log2, scaled. rewrite Z.log2_pow2 by done.
  pose proof (Z.log2_nonneg a) as H0. pose proof (Z.log2_spec a Ha) as [Hl _].
  destruct (Z.leb_spec 0 (Z.log2 a - k)).
  - rewrite <- Z.pow_add_r by lia. replace (k + (Z.log2 a - k)) with (Z.log2 a) by lia.
    destruct (Z.ltb_spec a (2 ^ Z.log2 a)); lia.
  - assert (2 ^ k = 2 ^ Z.log2 a * 2 ^ (- (Z.log2 a - k))) as Hpow.
    { rewrite <- Z.pow_add_r by lia. f_equal. lia. }
    assert (0 < 2 ^ (- (Z.log2 a - k))) by (apply Z.pow_pos_nonneg; lia).
    destruct (Z.ltb_spec (a * 2 ^ (- (Z.log2 a - k))) (2 ^ k)) as [Hlt|];
      [|done].
    rewrite Hpow in Hlt. nia.
Qed.

Lemma nearest_even_multiple m d : 0 < d → nearest_even (m * d) d = m.
Proof.
  intros Hd. unfold nearest_even.
  rewrite Z.mod_mul, Z.div_mul by lia. change (2 * 0) with 0.
  destruct (Z.ltb_spec 0 d); [done|lia].
Qed.

(** A fraction with a numerator of no more than 53 bits over a power of two
    is a double. *)
Lemma round_positive_dyadic a k :
  0 < a < 2 ^ 53 → 0 ≤ k ≤ 1022 →
  ∃ d, round_positive a (2 ^ k) = Finite d ∧ (d == a # Z.to_pos (2 ^ k))%Q.
Proof.
  intros [Ha Hlt] [Hk Hk']. unfold round_positive.
  rewrite (floor_log2_dyadic a k Ha Hk).
  pose proof (Z.log2_nonneg a) as H0.
  assert (Z.log2 a < 53) as H53 by (apply Z.log2_lt_pow2; lia).
  rewrite Z.max_l by lia.
  set (e := Z.log2 a - k - 52).
  assert (0 < 2 ^ k) as Hpk by (apply Z.pow_pos_nonneg; lia).
  assert (0 < 2 ^ (52 - Z.log2 a)) as Hps by (apply Z.pow_pos_nonneg; lia).
  assert (2 ^ (- e) = 2 ^ (52 - Z.log2 a) * 2 ^ k) as Hpow.
  { rewrite <- Z.pow_add_r by lia. f_equal. lia. }
  assert (nearest_even (scaled e a (2 ^ k)).1 (scaled e a (2 ^ k)).2
          = a * 2 ^ (52 - Z.log2 a)) as Hm.
  { unfold scaled. destruct (Z.leb_spec 0 e); simpl.
    - assert (k = 0) as -> by lia. assert (Z.log2 a = 52) as Hl by lia.
      replace e with 0 by lia. rewrite Hl. simpl.
      unfold nearest_even. rewrite Z.mod_1_r, Z.div_1_r. simpl. lia.
    - rewrite Hpow, Z.mul_assoc. by apply nearest_even_multiple. }
  destruct (scaled e a (2 ^ k)) as [n d]. simpl in Hm. rewrite Hm.
  assert (times_pow2 (a * 2 ^ (52 - Z.log2 a)) e == a # Z.to_pos (2 ^ k))%Q
    as Hv.
  { unfold times_pow2. destruct (Z.leb_spec 0 e).
    - assert (k = 0) as -> by lia. assert (Z.log2 a = 52) as Hl by lia.
      replace e with 0 by lia. rewrite Hl. unfold Qeq. simpl. lia.
    - unfold Qeq. simpl. rewrite !Z2Pos.id by (try apply Z.pow_pos_nonneg; lia).
      rewrite Hpow. lia. }
  assert (Qle_bool (inject_Z (2 ^ 1024))
            (times_pow2 (a * 2 ^ (52 - Z.log2 a)) e) = false) as ->.
  { apply not_true_is_false. rewrite Qle_bool_iff, Hv. unfold Qle. simpl.
    rewrite Z2Pos.id by done.
    assert (2 ^ 53 < 2 ^ 1024) by (apply Z.pow_lt_mono_r; lia). nia. }
  eexists. split; [reflexivity|]. by rewrite Qred_correct.
Qed.
End DyadicFacts.

(** For a result of [Math.random] on the grid and an index up to [2 ^ 26]
    the product is a double as it is: the source computes the index
    [floor_scaled] gives. *)
Lemma floor_scaled_double_coarse r n :
  coarse r → 0 < n → (Z.of_nat n ≤ 2 ^ 26)%Z →
  floor_scaled_double r n = Some (floor_scaled r n).
Proof.
  intros Hr Hn Hle. unfold floor_scaled_double, floor_scaled, Double.round.
  pose proof (below_one r) as Hb. apply N.ltb_lt in Hb.
  unfold coarse in Hr. rewrite Hr in *. simpl Qnum. simpl Qden.
  change (N.pos (2 ^ 26)) with 67108864%N in *.
  change (2 ^ 26)%Z with 67108864%Z in Hle.
  destruct (Z.of_N (numer r) * Z.of_nat n)%Z as [|a|a] eqn:Ha; [| |lia].
  - f_equal. assert (numer r = 0%N) as -> by lia. reflexivity.
  - destruct (round_positive_dyadic (Z.pos a) 26) as (d & Hd & Hv); [|lia|].
    { split; [lia|]. rewrite <- Ha.
      change (2 ^ 53)%Z with (67108864 * 134217728)%Z. nia. }
    change (2 ^ 26)%Z with 67108864%Z in Hd, Hv.
    change (Z.pos (2 ^ 26)) with 67108864%Z. rewrite Hd. f_equal.
    rewrite (Qfloor_comp _ _ Hv). unfold Qfloor.
    change (Z.pos (Z.to_pos 67108864)) with 67108864%Z. rewrite <- Ha.
    rewrite <- (Z2Nat.id (Z.of_N (numer r) * Z.of_nat n / 67108864))
      by (apply Z.div_pos; lia).
    rewrite Nat2Z.id.
    rewrite <- (N2Z.id (numer r * N.of_nat n / 67108864)).
    rewrite Z_N_nat. f_equal. rewrite N2Z.inj_div, N2Z.inj_mul.
    by rewrite nat_N_Z.
Qed.

(** A result of [Math.random] on the grid for which [Math.floor(r * n)] is
    [j]. *)
Lemma floor_scaled_hits (j n : nat) :
  j < n → (Z.of_nat n ≤ 2 ^ 26)%Z →
  ∃ r : unit_real, coarse r ∧ floor_scaled r n = j.
Proof.
  intros Hj Hn. change (2 ^ 26)%Z with 67108864%Z in Hn.
  set (m := ((N.of_nat j * 67108864 + N.of_nat n - 1) / N.of_nat n)%N).
  assert (N.of_nat j * 67108864 ≤ m * N.of_nat n
          ∧ m * N.of_nat n < (N.of_nat j + 1) * 67108864)%N as [Hlo Hhi].
  { pose proof (N.Div0.div_mod (N.of_nat j * 67108864 + N.of_nat n - 1)
                  (N.of_nat n)) as Hdm. fold m in Hdm.
    assert (N.of_nat n ≠ 0%N) as Hn0 by lia.
    pose proof (N.mod_lt (N.of_nat j * 67108864 + N.of_nat n - 1) (N.of_nat n)
                  Hn0) as Hmod.
    set (rem := ((N.of_nat j * 67108864 + N.of_nat n - 1) mod N.of_nat n)%N)
      in *.
    rewrite (N.mul_comm (N.of_nat n) m) in Hdm. lia. }
  assert ((m <? N.pos (2 ^ 26))%N = true) as Hr.
  { apply N.ltb_lt. change (N.pos (2 ^ 26)) with 67108864%N. nia. }
  exists {| numer := m; denom := (2 ^ 26)%positive; below_one := Hr |}.
  split; [reflexivity|]. unfold floor_scaled. simpl numer. simpl denom.
  change (N.pos (2 ^ 26)) with 67108864%N.
  assert (m * N.of_nat n / 67108864 = N.of_nat j)%N; [|lia].
  symmetry. apply (N.div_unique _ _ _ (m * N.of_nat n - N.of_nat j * 67108864));
    lia.
Qed.

Section ShuffleReach.
Context {T : Type}.
Implicit Types (h : heap T) (l cur target : list T) (a : loc) (g : rng).

Lemma shuffle_loop_reaches n a h cur target :
  h !! a = Some cur → n ≤ length cur → (Z.of_nat n ≤ 2 ^ 26)%Z →
  take n target ≡ₚ take n cur → drop n target = drop n cur →
  ∃ g, (∀ k, coarse (g k)) ∧ (shuffle_loop n a h g).1 = <[a := target]> h.
Proof.
  revert h cur. induction n as [|n IH]; intros h cur Ha Hn Hbound Htake Hdrop.
  - exists (fun _ => {| numer := 0; denom := 2 ^ 26; below_one := eq_refl |}).
    split; [done|]. simpl. rewrite !drop_0 in Hdrop. subst.
    by rewrite insert_id.
  - assert (length target = length cur) as Hlen.
    { apply Permutation_length in Htake. rewrite !length_take in Htake.
      apply (f_equal length) in Hdrop. rewrite !length_drop in Hdrop. lia. }
    destruct (lookup_lt_is_Some_2 target n) as [x Hx]; [lia|].
    assert (x ∈ take (S n) cur) as Hin.
    { rewrite <- Htake. apply list_elem_of_lookup. exists n.
      by rewrite lookup_take_lt by lia. }
    apply list_elem_of_lookup in Hin as [j Hj].
    assert (j < S n) as Hjn.
    { apply lookup_lt_Some in Hj. rewrite length_take in Hj. lia. }
    rewrite lookup_take_lt in Hj by done.
    destruct (floor_scaled_hits j (S n) Hjn Hbound) as (r & Hgrid & Hr).
    destruct (lookup_lt_is_Some_2 cur n) as [y Hy]; [lia|].
    set (cur' := <[j := y]> (<[n := x]> cur)).
    destruct (IH (<[a := cur']> h) cur') as (g0 & Hgrid0 & Hg0).
    + apply lookup_insert_eq.
    + unfold cur'. rewrite !length_insert. lia.
    + lia.
    + assert (take (S n) cur' ≡ₚ take (S n) target) as Hp.
      { rewrite Htake. unfold cur'.
        rewrite !take_insert_lt by lia.
        apply Permutation_insert_swap; by rewrite lookup_take_lt by lia. }
      rewrite (take_S_r cur' n x) in Hp.
      * rewrite (take_S_r target n x) in Hp by done.
        by apply Permutation_app_inv_r in Hp.
      * unfold cur'. destruct (decide (j = n)) as [->|Hne].
        -- rewrite list_lookup_insert_eq by (rewrite length_insert; lia).
           congruence.
        -- rewrite list_lookup_insert_ne by done.
           apply list_lookup_insert_eq. lia.
    + rewrite (drop_S target x n) by done.
      assert (cur' !! n = Some x) as Hc.
      { unfold cur'. destruct (decide (j = n)) as [->|Hne].
        - rewrite list_lookup_insert_eq by (rewrite length_insert; lia).
          congruence.
        - rewrite list_lookup_insert_ne by done.
          apply list_lookup_insert_eq. lia. }
      rewrite (drop_S cur' x n) by done. f_equal.
      unfold cur'. by rewrite !drop_insert_lt by lia.
    + rewrite insert_insert_eq in Hg0.
      exists (fun k => match k with 0 => r | S k => g0 k end).
      split; [by intros [|k]|].
      destruct (shuffle_loop_turn h a cur
                  (fun k => match k with 0 => r | S k => g0 k end) n Ha Hn)
        as (x' & y' & Hx' & Hy' & Heq & _).
      cbv beta iota in Hy', Heq. rewrite Hr in Hy', Heq.
      assert (x' = y) as -> by congruence. assert (y' = x) as -> by congruence.
      rewrite Heq. exact Hg0.
Qed.
End ShuffleReach.

(** [shuffle] can return every permutation of an argument of up to [2 ^ 26]
    elements: for each one there are results of [Math.random], all of them
    multiples of [2 ^ -26], that produce it. With such results the products
    of the loop are doubles as they are, so that the source computes the
    very indices of [floor_scaled]. *)
Theorem shuffle_reaches_every_permutation {T} (array : loc) (h : heap T)
    (l target : list T) :
  h !! array = Some l → target ≡ₚ l → (Z.of_nat (length l) ≤ 2 ^ 26)%Z →
  ∃ g,
    deref (shuffle array h g).1.2 (shuffle array h g).1.1 = target ∧
    ∀ k currentIndex,
      0 < currentIndex ≤ length l →
      coarse (g k) ∧
      floor_scaled_double (g k) currentIndex
        = Some (floor_scaled (g k) currentIndex).
Proof.
  intros Hl Hp Hbound. unfold shuffle, spread, alloc.
  set (b := fresh (dom h)). set (h1 := <[b := deref h array]> h).
  assert (deref h1 b = l) as Hb.
  { unfold h1, deref at 1. rewrite lookup_insert_eq. simpl.
    unfold deref. by rewrite Hl. }
  destruct (shuffle_loop_reaches (length l) b h1 l target)
    as (g & Hgrid & Hg).
  - unfold h1. rewrite lookup_insert_eq. f_equal. unfold deref. by rewrite Hl.
  - done.
  - done.
  - rewrite take_ge by (by rewrite (Permutation_length Hp)).
    by rewrite take_ge.
  - rewrite !drop_ge; [done|done|by rewrite (Permutation_length Hp)].
  - exists g. rewrite Hb. split.
    + destruct (shuffle_loop (length l) b h1 g) as [h2 g2]. simpl in *.
      subst h2. unfold deref. by rewrite lookup_insert_eq.
    + intros k n [Hn Hle]. split; [done|].
      apply floor_scaled_double_coarse; [done|done|lia].
Qed.

Lemma shuffle_reaches_every_permutation_witness :
  let h : heap string := {[ 0 := ["a"; "b"; "c"] ]} in
  ∃ g, deref (shuffle 0 h g).1.2 (shuffle 0 h g).1.1 = ["c"; "a"; "b"] ∧
       floor_scaled_double (g 0) 3 = Some (floor_scaled (g 0) 3).
Proof.
  intros h.
  destruct (shuffle_reaches_every_permutation 0 h ["a"; "b"; "c"]
              ["c"; "a"; "b"]) as (g & Hg & Hd).
  - vm_compute. reflexivity.
  - change ["c"; "a"; "b"] with (["c"] ++ ["a"; "b"]).
    change ["a"; "b"; "c"] with (["a"; "b"] ++ ["c"]).
    apply Permutation_app_comm.
  - vm_compute. discriminate.
  - exists g. split; [exact Hg|]. apply (Hd 0 3). simpl. lia.
Defined.

(** ** The records and the histogram of a run *)

Lemma flat_map_insert {A} (f : task → list A) (ws : list task) i old t :
  ws !! i = Some old →
  flat_map f (<[i := t]> ws) ++ f old ≡ₚ flat_map f ws ++ f t.
Proof.
  revert i. induction ws as [|w ws IH]; intros [|i]; simpl; try done.
  - intros [= ->].
    rewrite (Permutation_app_comm (f t ++ flat_map f ws) (f old)).
    rewrite <- app_assoc. f_equiv. apply Permutation_app_comm.
  - intros H. rewrite <- !app_assoc. f_equiv. by apply IH.
Qed.

Lemma flat_map_snoc {A} (f : task → list A) (ws : list task) t :
  flat_map f (ws ++ [t]) = flat_map f ws ++ f t.
Proof. rewrite flat_map_app. simpl. by rewrite app_nil_r. Qed.

Lemma occurrences_app k l1 l2 :
  occurrences k (l1 ++ l2) = occurrences k l1 + occurrences k l2.
Proof. unfold occurrences. by rewrite filter_app, length_app. Qed.

Lemma occurrences_perm k l1 l2 : l1 ≡ₚ l2 → occurrences k l1 = occurrences k l2.
Proof. intros Hp. unfold occurrences. by rewrite Hp. Qed.

Lemma occurrences_one k entry :
  occurrences k [entry] = if decide (status entry = k) then 1 else 0.
Proof.
  unfold occurrences. rewrite filter_cons.
  by destruct (decide (status entry = k)).
Qed.

(** A call of [validateURL] keeps the records there are, in their order, at
    the head of both arrays, and adds its own observation once. *)
Lemma validateURL_reports u get r :
  ∃ entry,
    (validateURL u get r).1 = Returned entry ∧ url entry = u ∧
    reported (validateURL u get r).2 ≡ₚ reported r ++ [entry] ∧
    non200Urls r `prefix_of` non200Urls (validateURL u get r).2 ∧
    parsedUrls r `prefix_of` parsedUrls (validateURL u get r).2.
Proof.
  destruct get as [code | carried].
  - exists {| url := u; status := code |}. unfold validateURL, reported.
    destruct (Z.eqb_spec code 200) as [->|Hne]; simpl.
    + rewrite filter_app, filter_cons_True by done. rewrite filter_nil.
      rewrite app_assoc. repeat split; first [done | by eexists].
    + rewrite filter_app, filter_cons_False by done.
      rewrite filter_nil, app_nil_r.
      repeat split; try (by eexists).
      rewrite <- !app_assoc. f_equiv. apply Permutation_app_comm.
  - exists {| url := u; status := or_else carried 500 |}.
    unfold validateURL, reported. simpl.
    repeat split; try (by eexists); try reflexivity.
    rewrite <- !app_assoc. f_equiv. apply Permutation_app_comm.
Qed.

Lemma run_worker_records s t s1 :
  run_worker s = (t, s1) →
  validated s1 = validated s ++ called t ∧ workers s1 = workers s ∧
  records s1 = records s ∧ statusCounts s1 = statusCounts s ∧
  arrived t = [].
Proof.
  unfold run_worker.
  destruct (worker (isPaused s) (urlQueue s)) as [[t' q] taken] eqn:Hw.
  intros [= <- <-]. simpl. repeat split.
  destruct t'; try done.
  exfalso. revert Hw. generalize (urlQueue s) q taken. clear.
  intros q0. induction q0 as [|u q0 IH]; intros q taken; simpl; [done|].
  destruct (isPaused s); [done|]. destruct (truthy u); [done|].
  destruct (worker false q0) as [[t0 q1] taken0] eqn:Hw. intros [= -> <- <-].
  by eapply IH.
Qed.

Lemma spawn_records_inv s : records_inv s → records_inv (spawn s).
Proof.
  intros [Hu Hc]. unfold spawn. destruct (run_worker s) as [t s1] eqn:Hr.
  destruct (run_worker_records _ _ _ Hr) as (Hv & Hw & Hrec & Hsc & Ha).
  split; simpl.
  - rewrite Hv, Hw, Hrec. unfold requested. rewrite flat_map_snoc, Hu.
    fold (requested (workers s)). rewrite <- !app_assoc. f_equiv.
    apply Permutation_app_comm.
  - intros k. rewrite Hw, Hrec, Hsc. unfold waiting.
    rewrite flat_map_snoc, Ha, app_nil_r. apply Hc.
Qed.

Lemma step_records_inv requestDelay e s s' :
  records_inv s → step requestDelay e s = Some s' → records_inv s'.
Proof.
  intros [Hu Hc]. destruct e as [i | i get | i | paused]; simpl.
  - destruct (workers s !! i) as [[ms| | | |]|] eqn:Hi; try done.
    destruct (run_worker s) as [t s1] eqn:Hr. intros [= <-].
    destruct (run_worker_records _ _ _ Hr) as (Hv & Hw & Hrec & Hsc & Ha).
    split; simpl.
    + rewrite Hv, Hw, Hrec, Hu.
      pose proof (flat_map_insert called (workers s) i _ t Hi) as Hp.
      simpl in Hp. rewrite app_nil_r in Hp. unfold requested. rewrite Hp.
      rewrite <- !app_assoc. f_equiv. apply Permutation_app_comm.
    + intros k. rewrite Hw, Hrec, Hsc.
      pose proof (flat_map_insert arrived (workers s) i _ t Hi) as Hp.
      simpl in Hp. rewrite Ha, !app_nil_r in Hp. unfold waiting.
      rewrite (occurrences_perm _ _ _ Hp). apply Hc.
  - destruct (workers s !! i) as [[|u| | |]|] eqn:Hi; try done.
    destruct (validateURL_reports u get (records s))
      as (entry & Hret & Hurl & Hrep & _).
    destruct (validateURL u get (records s)) as [c r]. simpl in Hret, Hrep.
    subst c. intros [= <-]. split; simpl.
    + pose proof (flat_map_insert called (workers s) i _
                    (AwaitValidate entry) Hi) as Hp.
      simpl in Hp. rewrite app_nil_r in Hp.
      rewrite Hrep, map_app. simpl. rewrite Hurl, Hu.
      unfold requested. rewrite <- Hp. rewrite <- !app_assoc. f_equiv.
      apply Permutation_app_comm.
    + intros k.
      pose proof (flat_map_insert arrived (workers s) i _
                    (AwaitValidate entry) Hi) as Hp.
      simpl in Hp. rewrite app_nil_r in Hp. unfold waiting.
      rewrite (occurrences_perm _ _ _ Hp), (occurrences_perm _ _ _ Hrep).
      rewrite !occurrences_app. specialize (Hc k). unfold waiting in Hc. lia.
  - destruct (workers s !! i) as [[| |result| |]|] eqn:Hi; try done.
    intros [= <-]. split; simpl.
    + pose proof (flat_map_insert called (workers s) i _
                    (AwaitDelay (Number requestDelay)) Hi) as Hp.
      simpl in Hp. rewrite !app_nil_r in Hp. unfold requested.
      by rewrite Hp.
    + intros k.
      pose proof (flat_map_insert arrived (workers s) i _
                    (AwaitDelay (Number requestDelay)) Hi) as Hp.
      simpl in Hp. rewrite app_nil_r in Hp.
      apply (occurrences_perm k) in Hp. rewrite occurrences_app in Hp.
      rewrite occurrences_one in Hp. rewrite count_tally.
      specialize (Hc k). unfold waiting in *.
      destruct (decide (status result = k)); lia.
  - by intros [= <-].
Qed.

Lemma reachable_records_inv cfg urls s : reachable cfg urls s → records_inv s.
Proof.
  intros [schedule Hrun]. revert Hrun.
  assert (records_inv (start (concurrencyLimit cfg) urls)) as H0.
  { unfold start. generalize (loop_turns (Number (concurrencyLimit cfg))).
    intros n.
    assert (records_inv
              {| urlQueue := urls; processed := 0; statusCounts := ∅;
                 records := {| non200Urls := []; parsedUrls := [] |};
                 isPaused := false; workers := []; shifted := [];
                 validated := [] |}) as Hinit by (by split).
    revert Hinit. generalize
      {| urlQueue := urls; processed := 0; statusCounts := ∅;
         records := {| non200Urls := []; parsedUrls := [] |};
         isPaused := false; workers := []; shifted := []; validated := [] |}.
    induction n as [|n IH]; intros s0 H; simpl; [done|].
    by apply IH, spawn_records_inv. }
  revert H0. generalize (start (concurrencyLimit cfg) urls).
  induction schedule as [|e schedule IH]; intros s0 H0; simpl.
  - by intros [= <-].
  - destruct (step (requestDelay cfg) e s0) as [s1|] eqn:He; [|done]. simpl.
    apply IH. by eapply step_records_inv.
Qed.

Lemma all_done_idle s :
  all_done s = true → requested (workers s) = [] ∧ waiting (workers s) = [].
Proof.
  unfold all_done, requested, waiting.
  induction (workers s) as [|t ws IH]; simpl; [done|].
  intros [Ht Hws]%andb_true_iff. destruct (IH Hws) as [-> ->].
  by destruct t.
Qed.

(** When all workers of an accepted configuration are done the queue is
    empty and the calls were the non-empty URLs, in order. *)
Lemma all_done_drained cfg urls s :
  concurrencyLimit_ok (concurrencyLimit cfg) = true →
  reachable cfg urls s → all_done s = true →
  urlQueue s = [] ∧ validated s = filter (fun u => truthy u = true) urls.
Proof.
  intros Hok Hreach Hdone.
  pose proof (reachable_inv urls cfg s Hreach) as [Hq Hv Hp Ht Hd Hf].
  assert (urlQueue s = []) as Hnil.
  { apply Hd, all_done_Done; [done|].
    destruct Hreach as [schedule Hrun]. apply run_workers in Hrun.
    unfold start in Hrun. rewrite spawn_all_workers in Hrun. simpl in Hrun.
    pose proof (accepted_limit_spawns _ Hok).
    intros Hw. rewrite Hw in Hrun. simpl in Hrun. lia. }
  split; [done|]. rewrite Hnil, app_nil_r in Hq. by subst urls.
Qed.

Lemma occurrences_filter_200 k (l : list URLStatus) :
  occurrences k (filter (fun entry => status entry = 200%Z) l)
    = if decide (k = 200%Z) then occurrences 200 l else 0.
Proof.
  unfold occurrences. destruct (decide (k = 200%Z)) as [->|Hk].
  - induction l as [|e l IH]; [done|]. rewrite !filter_cons.
    destruct (decide (status e = 200%Z)); [|done].
    rewrite filter_cons, decide_True by done. simpl. by rewrite IH.
  - induction l as [|e l IH]; [done|]. rewrite filter_cons.
    destruct (decide (status e = 200%Z)); [|done].
    by rewrite filter_cons, decide_False by congruence.
Qed.

(** Every URL handed to [validateURL] is, at every point of a run, either
    still under way or recorded, once: in [non200Urls], or in [parsedUrls]
    with the status 200. When the workers of an accepted configuration are
    all done, the URLs recorded that way are the non-empty URLs of the
    sitemap, each as often as the sitemap lists it. *)
Theorem each_url_is_recorded_once cfg urls s :
  concurrencyLimit_ok (concurrencyLimit cfg) = true →
  reachable cfg urls s →
  validated s ≡ₚ requested (workers s) ++ map url (reported (records s)) ∧
  (all_done s = true →
   map url (reported (records s)) ≡ₚ filter (fun u => truthy u = true) urls).
Proof.
  intros Hok Hreach. destruct (reachable_records_inv _ _ _ Hreach) as [Hu _].
  split; [done|]. intros Hdone.
  destruct (all_done_drained _ _ _ Hok Hreach Hdone) as [_ <-].
  destruct (all_done_idle _ Hdone) as [Hr _]. by rewrite Hu, Hr.
Qed.

Lemma each_url_is_recorded_once_witness :
  let cfg := {| sitemapUrl := "http://a.test/sitemap.xml";
                concurrencyLimit := "2"; requestDelay := "300";
                traversalOrder := "sequential" |} in
  let urls := ["https://a.test/"; "https://b.test/"; "https://c.test/"] in
  let schedule := [Settle 1 (Fulfilled 201); Settle 0 (Fulfilled 200);
                   Resume 0; Resume 1; Timer 1; Settle 1 (Rejected None);
                   Resume 1; Timer 0; Timer 1] in
  ∃ s, run "300" schedule (start "2" urls) = Some s ∧
       all_done s = true ∧
       map url (non200Urls (records s)) = ["https://b.test/"; "https://c.test/"] ∧
       map url (reported (records s)) ≡ₚ urls.
Proof.
  intros cfg urls schedule. eexists. split; [vm_compute; reflexivity|].
  split; [reflexivity|]. split; [reflexivity|].
  match goal with |- map url (reported (records ?s)) ≡ₚ _ =>
    destruct (each_url_is_recorded_once cfg urls s) as (_ & Hdone);
      [vm_compute; reflexivity | exists schedule; vm_compute; reflexivity |];
    exact (Hdone eq_refl)
  end.
Defined.

(** When all workers are done the histogram counts, for every status, the
    records of [non200Urls] with that status, and for 200 the records of
    [parsedUrls] with the status 200 besides; and [processed] is the number
    of these records. *)
Theorem histogram_counts_the_records cfg urls s :
  reachable cfg urls s → all_done s = true →
  (∀ k, count (statusCounts s) k =
        occurrences k (non200Urls (records s)) +
        if decide (k = 200%Z) then occurrences 200 (parsedUrls (records s))
        else 0) ∧
  processed s = length (reported (records s)).
Proof.
  intros Hreach Hdone.
  destruct (reachable_records_inv _ _ _ Hreach) as [Hu Hc].
  destruct (all_done_idle _ Hdone) as [Hr Hw]. split.
  - intros k. specialize (Hc k). rewrite Hw in Hc.
    unfold reported in Hc. rewrite occurrences_app, occurrences_filter_200 in Hc.
    unfold occurrences at 1 in Hc. simpl in Hc. lia.
  - pose proof (reachable_inv urls cfg s Hreach) as [_ _ Hp _ _ _].
    rewrite all_done_pending in Hp by done.
    rewrite Hr in Hu. simpl in Hu. apply Permutation_length in Hu.
    rewrite length_map in Hu. lia.
Qed.

Lemma histogram_counts_the_records_witness :
  let cfg := {| sitemapUrl := "http://a.test/sitemap.xml";
                concurrencyLimit := "2"; requestDelay := "300";
                traversalOrder := "sequential" |} in
  let urls := ["https://a.test/"; "https://b.test/"; "https://c.test/"] in
  let schedule := [Settle 1 (Rejected (Some 404%Z)); Settle 0 (Fulfilled 200);
                   Resume 0; Resume 1; Timer 1; Settle 1 (Rejected (Some 404%Z));
                   Resume 1; Timer 0; Timer 1] in
  ∃ s, run "300" schedule (start "2" urls) = Some s ∧
       count (statusCounts s) 404 = occurrences 404 (non200Urls (records s)) + 0 ∧
       count (statusCounts s) 404 = 2 ∧ processed s = 3.
Proof.
  intros cfg urls schedule. eexists. split; [vm_compute; reflexivity|].
  match goal with |- count (statusCounts ?s) _ = _ ∧ _ =>
    destruct (histogram_counts_the_records cfg urls s) as (Hk & Hp);
      [exists schedule; vm_compute; reflexivity | reflexivity |];
    split; [exact (Hk 404%Z)|]
  end.
  split; reflexivity.
Defined.

(** ** The number of workers and of requests under way *)

Lemma loop_turns_accepted input :
  concurrencyLimit_ok input = true → 1 ≤ loop_turns (Number input) ≤ 15.
Proof.
  intros Hok. split; [by apply accepted_limit_spawns|].
  revert Hok. unfold concurrencyLimit_ok, js_lt.
  destruct (Number input) as [|negative|q]; simpl; [done|by destruct negative|].
  intros [_ Hlt]%andb_true_iff. apply negb_true_iff in Hlt.
  assert (q < inject_Z 15)%Q as Hq.
  { apply Qnot_le_lt. intros Hle. apply Qle_bool_iff in Hle. congruence. }
  pose proof (Qceiling_lt q) as Hc.
  assert (inject_Z (Qceiling q - 1) < inject_Z 15)%Q as H15.
  { by apply Qlt_trans with q. }
  rewrite <- Zlt_Qlt in H15. lia.
Qed.

Lemma loop_turns_decimal input :
  decimal input = true → concurrencyLimit_ok input = true →
  loop_turns (Number input) = Z.to_nat (decimal_value input).
Proof.
  intros Hd Hok. rewrite (Number_accepted_decimal _ Hd Hok). simpl.
  by rewrite Qceiling_Z.
Qed.

(** The turns of the loop are the indices for which its condition
    [i < x] holds. *)
Lemma loop_turns_condition (x : number) (i : nat) :
  js_gt x (of_Z 0) = true → js_lt x (of_Z 15) = true →
  i < loop_turns x ↔ js_lt (of_Z (Z.of_nat i)) x = true.
Proof.
  unfold js_lt. destruct x as [|negative|q]; simpl; [done|by destruct negative|].
  intros Hpos _. apply negb_true_iff in Hpos.
  assert (¬ (q <= inject_Z 0)%Q) as Hq.
  { intros Hle. apply Qle_bool_iff in Hle. congruence. }
  pose proof (Qle_ceiling q) as Hc. pose proof (Qceiling_lt q) as Hl.
  rewrite negb_true_iff. split.
  - intros Hi. apply not_true_is_false. rewrite Qle_bool_iff. intros Hle.
    assert (inject_Z (Qceiling q - 1) < inject_Z (Z.of_nat i))%Q as Hlt.
    { by apply Qlt_le_trans with q. }
    rewrite <- Zlt_Qlt in Hlt. lia.
  - intros Hi. assert (inject_Z (Z.of_nat i) < q)%Q as Hlt.
    { apply Qnot_le_lt. intros Hle. apply Qle_bool_iff in Hle. congruence. }
    assert (inject_Z (Z.of_nat i) < inject_Z (Qceiling q))%Q as Hlt'.
    { by apply Qlt_le_trans with q. }
    rewrite <- Zlt_Qlt in Hlt'. lia.
Qed.

Lemma reachable_workers cfg urls s :
  reachable cfg urls s →
  length (workers s) = loop_turns (Number (concurrencyLimit cfg)).
Proof.
  intros [schedule Hrun]. apply run_workers in Hrun. rewrite Hrun.
  unfold start. by rewrite spawn_all_workers.
Qed.

(** The [for] loop of [main] starts a worker for every index [i] with
    [i < Number(concurrencyLimit)] and for no other, and a run never adds
    or drops one. For a limit the prompt accepted that is between 1 and 15
    workers, and for a limit written as an integer exactly as many as it
    says. *)
Theorem accepted_limit_worker_count cfg urls s :
  concurrencyLimit_ok (concurrencyLimit cfg) = true →
  reachable cfg urls s →
  (∀ i : nat,
     i < length (workers s) ↔
     js_lt (of_Z (Z.of_nat i)) (Number (concurrencyLimit cfg)) = true) ∧
  1 ≤ length (workers s) ≤ 15 ∧
  (decimal (concurrencyLimit cfg) = true →
   length (workers s) = Z.to_nat (decimal_value (concurrencyLimit cfg))).
Proof.
  intros Hok Hreach. rewrite (reachable_workers _ _ _ Hreach).
  split; [|split; [by apply loop_turns_accepted|]].
  - intros i. unfold concurrencyLimit_ok in Hok.
    apply andb_true_iff in Hok as [Hpos Hlt]. by apply loop_turns_condition.
  - intros Hd. by apply loop_turns_decimal.
Qed.

Lemma accepted_limit_worker_count_witness :
  let cfg := {| sitemapUrl := "http://a.test/sitemap.xml";
                concurrencyLimit := "14.000000000000000000001";
                requestDelay := "300"; traversalOrder := "sequential" |} in
  let s := start "14.000000000000000000001" ["https://a.test/"] in
  length (workers s) = 14 ∧
  js_lt (of_Z 13) (Number "14.000000000000000000001") = true ∧
  js_lt (of_Z 14) (Number "14.000000000000000000001") = false ∧
  length (workers (start "14.5" ["https://a.test/"])) = 15.
Proof.
  intros cfg s.
  destruct (accepted_limit_worker_count cfg ["https://a.test/"] s)
    as (Hi & _ & _); [vm_compute; reflexivity | by exists [] |].
  pose proof (Hi 13) as H13. pose proof (Hi 14) as H14.
  split; [vm_compute; reflexivity|].
  split; [apply H13; vm_compute; lia|].
  split; [|vm_compute; reflexivity].
  apply not_true_is_false. intros H. apply H14 in H. vm_compute in H. lia.
Defined.

Lemma pending_le ws : pending ws ≤ length ws.
Proof.
  unfold pending. induction ws as [|t ws IH]; simpl; [done|].
  destruct t; simpl; lia.
Qed.

(** At every point of a run the calls of [validateURL] are ahead of
    [processed] by the requests under way, which are never more than the
    workers: with a limit the prompt accepted, never more than 15. *)
Theorem requests_under_way_are_bounded cfg urls s :
  concurrencyLimit_ok (concurrencyLimit cfg) = true →
  reachable cfg urls s →
  length (validated s) = processed s + pending (workers s) ∧
  pending (workers s) ≤ loop_turns (Number (concurrencyLimit cfg)) ≤ 15.
Proof.
  intros Hok Hreach.
  pose proof (reachable_inv urls cfg s Hreach) as [_ _ Hp _ _ _].
  split; [done|]. rewrite <- (reachable_workers _ _ _ Hreach).
  split; [apply pending_le|].
  rewrite (reachable_workers _ _ _ Hreach). by apply loop_turns_accepted.
Qed.

Lemma requests_under_way_are_bounded_witness :
  let cfg := {| sitemapUrl := "http://a.test/sitemap.xml";
                concurrencyLimit := "2"; requestDelay := "300";
                traversalOrder := "sequential" |} in
  let urls := ["https://a.test/"; "https://b.test/"; "https://c.test/"] in
  let s := start "2" urls in
  length (validated s) = processed s + pending (workers s) ∧
  pending (workers s) ≤ 2 ≤ 15.
Proof.
  intros cfg urls s.
  apply (requests_under_way_are_bounded cfg urls s);
    [vm_compute; reflexivity | by exists []].
Defined.

(** ** What becomes of every URL *)

(** At every point of a run each URL of the sitemap is in exactly one
    place: still in the queue, under way, processed, or skipped for being
    the empty string. So [processed] never passes [total]. *)
Theorem every_url_is_accounted_for cfg urls s :
  reachable cfg urls s →
  processed s + pending (workers s) + length (urlQueue s)
    + length (filter (fun u => ¬ truthy u = true) (shifted s))
    = length urls ∧
  processed s ≤ length urls.
Proof.
  intros Hreach.
  pose proof (reachable_inv urls cfg s Hreach) as [Hq Hv Hp _ _ _].
  assert (processed s + pending (workers s) + length (urlQueue s)
          + length (filter (fun u => ¬ truthy u = true) (shifted s))
          = length urls); [|split; [done|lia]].
  rewrite Hp, Hv, <- Hq, length_app.
  pose proof (filter_app_complement (fun u => truthy u = true) (shifted s)) as Hc.
  apply Permutation_length in Hc. rewrite length_app in Hc. lia.
Qed.

Lemma every_url_is_accounted_for_witness :
  let cfg := {| sitemapUrl := "http://a.test/sitemap.xml";
                concurrencyLimit := "1"; requestDelay := "300";
                traversalOrder := "sequential" |} in
  let urls := [""; "https://a.test/"; "https://b.test/"] in
  let schedule := [Settle 0 (Fulfilled 200); Resume 0] in
  ∃ s, run "300" schedule (start "1" urls) = Some s ∧
       processed s = 1 ∧ pending (workers s) = 0 ∧
       length (urlQueue s) = 1 ∧
       processed s + pending (workers s) + length (urlQueue s)
         + length (filter (fun u => ¬ truthy u = true) (shifted s)) = 3.
Proof.
  intros cfg urls schedule. eexists. split; [vm_compute; reflexivity|].
  repeat (split; [reflexivity|]).
  match goal with |- processed ?s + _ + _ + _ = _ =>
    destruct (every_url_is_accounted_for cfg urls s) as (Hsum & _);
      [exists schedule; vm_compute; reflexivity|];
    exact Hsum
  end.
Defined.

(** ** How long a run is *)

Lemma step_remaining requestDelay e s s' :
  isPaused s = false → of_worker e → step requestDelay e s = Some s' →
  isPaused s' = false ∧ remaining s' < remaining s.
Proof.
  intros Hp He. unfold remaining.
  destruct e as [i | i get | i | paused]; simpl; [| | |by destruct He].
  - destruct (workers s !! i) as [[ms| | | |]|] eqn:Hi; try done.
    unfold run_worker.
    destruct (worker (isPaused s) (urlQueue s)) as [[t q] taken] eqn:Hw.
    intros [= <-]. simpl. split; [done|].
    destruct (worker_spec _ _ _ _ _ Hw) as (_ & _ & _ & _ & _ & _ & _ & _ & Hwt).
    specialize (Hwt Hp).
    pose proof (sum_list_with_insert weight (workers s) i _ t Hi) as Hs.
    simpl in Hs. lia.
  - destruct (workers s !! i) as [[|u| | |]|] eqn:Hi; try done.
    destruct (validateURL_returns u get (records s)) as [code Hc].
    destruct (validateURL u get (records s)) as [c r]. simpl in Hc. subst c.
    intros [= <-]. simpl. split; [done|].
    pose proof (sum_list_with_insert weight (workers s) i _
                  (AwaitValidate {| url := u; status := code |}) Hi) as Hs.
    simpl in Hs. lia.
  - destruct (workers s !! i) as [[| |result| |]|] eqn:Hi; try done.
    intros [= <-]. simpl. split; [done|].
    pose proof (sum_list_with_insert weight (workers s) i _
                  (AwaitDelay (Number requestDelay)) Hi) as Hs.
    simpl in Hs. lia.
Qed.

Lemma spawn_all_remaining turns s :
  isPaused s = false →
  isPaused (spawn_all turns s) = false ∧
  remaining (spawn_all turns s) ≤ remaining s.
Proof.
  revert s. induction turns as [|n IH]; intros s Hp; simpl; [done|].
  assert (isPaused (spawn s) = false ∧ remaining (spawn s) ≤ remaining s)
    as [Hp1 Hr1].
  { unfold spawn, run_worker, remaining.
    destruct (worker (isPaused s) (urlQueue s)) as [[t q] taken] eqn:Hw.
    simpl. split; [done|].
    destruct (worker_spec _ _ _ _ _ Hw) as (_ & _ & _ & _ & _ & _ & _ & _ & Hwt).
    specialize (Hwt Hp). rewrite sum_list_with_app. simpl. lia. }
  destruct (IH _ Hp1). split; [done|lia].
Qed.

Lemma run_remaining requestDelay schedule s0 s :
  Forall of_worker schedule → isPaused s0 = false →
  run requestDelay schedule s0 = Some s →
  length schedule + remaining s ≤ remaining s0.
Proof.
  intros Hsched. revert s0.
  induction Hsched as [|e schedule He _ IH]; intros s0 Hp0; simpl.
  - by intros [= <-].
  - destruct (step requestDelay e s0) as [s1|] eqn:Hstep; [|done]. simpl.
    intros Hrun.
    destruct (step_remaining _ _ _ _ Hp0 He Hstep) as [Hp1 Hlt].
    specialize (IH s1 Hp1 Hrun). lia.
Qed.

(** As long as the flag is not set a run takes at most four turns of the
    event loop for every URL of the sitemap, whatever their order: no URL
    is asked for twice and no worker spins. *)
Theorem unpaused_run_is_short concurrencyLimit requestDelay urls schedule s :
  Forall of_worker schedule →
  run requestDelay schedule (start concurrencyLimit urls) = Some s →
  length schedule ≤ 4 * length urls.
Proof.
  intros Hsched Hrun.
  destruct (spawn_all_remaining (loop_turns (Number concurrencyLimit))
              {| urlQueue := urls; processed := 0; statusCounts := ∅;
                 records := {| non200Urls := []; parsedUrls := [] |};
                 isPaused := false; workers := []; shifted := [];
                 validated := [] |} eq_refl) as [Hp0 Hr0].
  fold (start concurrencyLimit urls) in Hp0, Hr0.
  unfold remaining at 2 in Hr0. simpl in Hr0.
  pose proof (run_remaining _ _ _ _ Hsched Hp0 Hrun). lia.
Qed.

Lemma unpaused_run_is_short_witness :
  let urls := ["https://a.test/"; "https://b.test/"] in
  let schedule := [Settle 0 (Fulfilled 200); Resume 0; Timer 0;
                   Settle 0 (Rejected None); Resume 0; Timer 0] in
  ∃ s, run "300" schedule (start "1" urls) = Some s ∧
       all_done s = true ∧ length schedule ≤ 8.
Proof.
  intros urls schedule. eexists. split; [vm_compute; reflexivity|].
  split; [reflexivity|].
  eapply (unpaused_run_is_short "1" "300" urls schedule);
    [repeat constructor; discriminate | vm_compute; reflexivity].
Defined.

(** ** The launch *)

Local Abbreviation kept := (filter (fun u => truthy u = true)).

Lemma worker_first q t q' taken :
  worker false q = (t, q', taken) →
  called t = take 1 (kept q) ∧ kept q' = drop 1 (kept q) ∧
  (t = Done ∨ ∃ u, t = AwaitGet u).
Proof.
  revert t q' taken. induction q as [|u q IH]; intros t q' taken; simpl.
  - intros [= <- <- <-]. repeat split. by left.
  - destruct (truthy u) eqn:Hu.
    + intros [= <- <- <-]. rewrite filter_cons_True by done. simpl.
      rewrite drop_0. repeat split. right. by exists u.
    + destruct (worker false q) as [[t0 q0] taken0]. intros [= <- <- <-].
      rewrite filter_cons_False by congruence. apply (IH t0 q0 taken0 eq_refl).
Qed.

Lemma spawn_all_calls turns s :
  isPaused s = false →
  validated (spawn_all turns s) = validated s ++ take turns (kept (urlQueue s)) ∧
  (Forall (fun t => t = Done ∨ ∃ u, t = AwaitGet u) (workers s) →
   Forall (fun t => t = Done ∨ ∃ u, t = AwaitGet u)
     (workers (spawn_all turns s))).
Proof.
  revert s. induction turns as [|n IH]; intros s Hp; simpl.
  - by rewrite take_0, app_nil_r.
  - destruct (worker false (urlQueue s)) as [[t q] taken] eqn:Hw.
    destruct (worker_first _ _ _ _ Hw) as (Hc & Hk & Ht).
    destruct (IH (spawn s)) as [Hv Hf].
    { unfold spawn, run_worker. rewrite Hp, Hw. done. }
    assert (validated (spawn s) = validated s ++ called t ∧
            urlQueue (spawn s) = q ∧
            workers (spawn s) = workers s ++ [t]) as (Hv1 & Hq1 & Hw1).
    { unfold spawn, run_worker. rewrite Hp, Hw. done. }
    split.
    + rewrite Hv, Hv1, Hq1, Hk, Hc, <- app_assoc. f_equal.
      rewrite (take_take_drop (kept (urlQueue s)) 1 n). done.
    + intros Hall. apply Hf. rewrite Hw1. apply Forall_app. split; [done|].
      by constructor.
Qed.

Lemma launch_pace concurrencyLimit urls :
  Forall (fun t => t = Done ∨ ∃ u, t = AwaitGet u)
    (workers (start concurrencyLimit urls)).
Proof.
  unfold start.
  by apply (spawn_all_calls (loop_turns (Number concurrencyLimit))
              {| urlQueue := urls; processed := 0; statusCounts := ∅;
                 records := {| non200Urls := []; parsedUrls := [] |};
                 isPaused := false; workers := []; shifted := [];
                 validated := [] |} eq_refl).
Qed.

(** With a limit the prompt accepted, the [for] loop of [main] sends the
    first requests at once, one for each worker, before any delay: the
    calls of [validateURL] made at the launch are the first non-empty URLs
    of the sitemap, as many as there are workers, and every worker either
    awaits its request or, the queue having run out, is done. *)
Theorem launch_requests_at_once concurrencyLimit urls :
  concurrencyLimit_ok concurrencyLimit = true →
  let s := start concurrencyLimit urls in
  validated s
    = take (length (workers s)) (filter (fun u => truthy u = true) urls) ∧
  1 ≤ length (workers s) ≤ 15 ∧
  Forall (fun t => t = Done ∨ ∃ u, t = AwaitGet u) (workers s) ∧
  processed s = 0.
Proof.
  intros Hok s. unfold s, start. rewrite spawn_all_workers. simpl length.
  rewrite Nat.add_0_l.
  destruct (spawn_all_calls (loop_turns (Number concurrencyLimit))
              {| urlQueue := urls; processed := 0; statusCounts := ∅;
                 records := {| non200Urls := []; parsedUrls := [] |};
                 isPaused := false; workers := []; shifted := [];
                 validated := [] |} eq_refl) as [Hv Hf].
  split; [exact Hv|]. split; [by apply loop_turns_accepted|].
  split; [by apply Hf|].
  generalize (loop_turns (Number concurrencyLimit)).
  assert (∀ n s0, processed (spawn_all n s0) = processed s0) as Hp.
  { induction n as [|n IH]; intros s0; simpl; [done|]. rewrite IH.
    unfold spawn, run_worker.
    by destruct (worker (isPaused s0) (urlQueue s0)) as [[??]?]. }
  intros n. by rewrite Hp.
Qed.

Lemma launch_requests_at_once_witness :
  let s := start "2.5" ["https://a.test/"; ""; "https://b.test/";
                        "https://c.test/"; "https://d.test/"] in
  validated s = ["https://a.test/"; "https://b.test/"; "https://c.test/"] ∧
  length (workers s) = 3 ∧ urlQueue s = ["https://d.test/"].
Proof.
  intros s.
  destruct (launch_requests_at_once "2.5"
              ["https://a.test/"; ""; "https://b.test/"; "https://c.test/";
               "https://d.test/"]) as (Hv & _); [vm_compute; reflexivity|].
  split; [exact Hv|]. split; vm_compute; reflexivity.
Defined.

(** ** One worker *)

Lemma validateURL_shape u get r :
  ∃ entry, (validateURL u get r).1 = Returned entry ∧ url entry = u ∧
    (non200Urls (validateURL u get r).2 = non200Urls r ∨
     non200Urls (validateURL u get r).2 = non200Urls r ++ [entry]) ∧
    (parsedUrls (validateURL u get r).2 = parsedUrls r ∨
     parsedUrls (validateURL u get r).2 = parsedUrls r ++ [entry]).
Proof.
  destruct get as [code | carried]; unfold validateURL; simpl.
  - exists {| url := u; status := code |}.
    destruct (Z.eqb_spec code 200); simpl; auto.
  - exists {| url := u; status := or_else carried 500 |}. simpl. auto.
Qed.

Lemma sublist_snoc (l1 l2 : list string) (x : string) (l1' : list string) :
  l1 `sublist_of` l2 → l1' = l1 ∨ l1' = l1 ++ [x] →
  l1' `sublist_of` l2 ++ [x].
Proof.
  intros Hs [->| ->]; [by apply sublist_inserts_r|by apply sublist_app].
Qed.

Lemma step_in_call_order requestDelay e s s' :
  in_call_order s → step requestDelay e s = Some s' → in_call_order s'.
Proof.
  intros (Hlen & done_urls & Hv & Hn & Hp) Hstep.
  split; [by rewrite (step_workers _ _ _ _ Hstep)|].
  destruct (workers s) as [|t0 [|??]] eqn:Hws; try done. clear Hlen.
  destruct e as [i | i get | i | paused]; simpl in Hstep; rewrite ?Hws in Hstep.
  - destruct i as [|i]; simpl in Hstep; [|done].
    destruct t0; try done.
    destruct (run_worker s) as [t s1] eqn:Hr. injection Hstep as <-.
    destruct (run_worker_records _ _ _ Hr) as (Hv1 & Hw1 & Hrec & _ & _).
    exists done_urls. simpl. rewrite Hw1, Hws, Hrec, Hv1, Hv. simpl.
    unfold requested. simpl. by rewrite !app_nil_r.
  - destruct i as [|i]; simpl in Hstep; [|done].
    destruct t0 as [|u| | |]; try done.
    destruct (validateURL_shape u get (records s))
      as (entry & Hret & Hurl & Hn1 & Hp1).
    destruct (validateURL u get (records s)) as [c r]. simpl in *. subst c.
    injection Hstep as <-. simpl. rewrite ?Hws.
    exists (done_urls ++ [u]). unfold requested in *. simpl in *.
    rewrite app_nil_r in *. split; [done|]. split.
    + apply (sublist_snoc (map url (non200Urls (records s)))); [done|].
      destruct Hn1 as [->| ->]; [by left|right].
      by rewrite map_app; simpl; rewrite Hurl.
    + apply (sublist_snoc (map url (parsedUrls (records s)))); [done|].
      destruct Hp1 as [->| ->]; [by left|right].
      by rewrite map_app; simpl; rewrite Hurl.
  - destruct i as [|i]; simpl in Hstep; [|done].
    destruct t0; try done. injection Hstep as <-. simpl. rewrite ?Hws.
    exists done_urls. unfold requested in *. simpl in *. done.
  - injection Hstep as <-. simpl. rewrite ?Hws. by exists done_urls.
Qed.

Lemma validated_sublist urls s :
  pool_inv urls s → validated s `sublist_of` urls.
Proof.
  intros [Hq Hv _ _ _ _]. rewrite Hv, <- Hq.
  apply sublist_inserts_r, sublist_filter.
Qed.

(** With a single worker both result arrays list their URLs in the order
    of the sitemap. *)
Theorem single_worker_keeps_order cfg urls s :
  loop_turns (Number (concurrencyLimit cfg)) = 1 →
  reachable cfg urls s →
  map url (non200Urls (records s)) `sublist_of` urls ∧
  map url (parsedUrls (records s)) `sublist_of` urls.
Proof.
  intros Hone Hreach.
  pose proof (validated_sublist urls s (reachable_inv urls cfg s Hreach)) as Hs.
  assert (in_call_order s) as (_ & done_urls & Hv & Hn & Hp).
  { destruct Hreach as [schedule Hrun]. revert Hrun.
    assert (in_call_order (start (concurrencyLimit cfg) urls)) as H0.
    { unfold start. rewrite Hone. unfold spawn_all, spawn, run_worker. simpl.
      destruct (worker false urls) as [[t q] taken]. simpl.
      split; [done|]. exists []. unfold requested. simpl.
      rewrite app_nil_r. repeat split; apply sublist_nil_l. }
    revert H0. generalize (start (concurrencyLimit cfg) urls).
    induction schedule as [|e schedule IH]; intros s0 H0; simpl.
    - by intros [= <-].
    - destruct (step (requestDelay cfg) e s0) as [s1|] eqn:He; [|done].
      simpl. apply IH. by eapply step_in_call_order. }
  assert (done_urls `sublist_of` urls).
  { etransitivity; [|exact Hs]. rewrite Hv. by apply sublist_inserts_r. }
  split; by etransitivity.
Qed.

Lemma single_worker_keeps_order_witness :
  let cfg := {| sitemapUrl := "http://a.test/sitemap.xml";
                concurrencyLimit := "1"; requestDelay := "300";
                traversalOrder := "sequential" |} in
  let urls := ["https://a.test/"; "https://b.test/"; "https://c.test/"] in
  let schedule := [Settle 0 (Fulfilled 200); Resume 0; Timer 0;
                   Settle 0 (Rejected (Some 404%Z)); Resume 0; Timer 0;
                   Settle 0 (Fulfilled 204)] in
  ∃ s, run "300" schedule (start "1" urls) = Some s ∧
       map url (non200Urls (records s)) = ["https://b.test/"; "https://c.test/"] ∧
       map url (non200Urls (records s)) `sublist_of` urls ∧
       map url (parsedUrls (records s)) `sublist_of` urls.
Proof.
  intros cfg urls schedule. eexists. split; [vm_compute; reflexivity|].
  split; [reflexivity|].
  match goal with |- map url (non200Urls (records ?s)) `sublist_of` _ ∧ _ =>
    apply (single_worker_keeps_order cfg urls s);
      [vm_compute; reflexivity | exists schedule; vm_compute; reflexivity]
  end.
Defined.

(** ** The pace of the requests *)

Lemma worker_task p q t q' taken :
  worker p q = (t, q', taken) →
  t = Done ∨ t = AwaitDelay (of_Z 1000) ∨ ∃ u, t = AwaitGet u.
Proof.
  revert t q' taken. induction q as [|u q IH]; intros t q' taken; simpl.
  - intros [= <- <- <-]. by left.
  - destruct p; [intros [= <- <- <-]; right; by left|].
    destruct (truthy u).
    + intros [= <- <- <-]. right. right. by exists u.
    + destruct (worker false q) as [[t0 q0] taken0]. intros [= <- <- <-].
      apply (IH t0 q0 taken0 eq_refl).
Qed.

Lemma reachable_paced cfg urls s :
  reachable cfg urls s → Forall (paced (requestDelay cfg)) (workers s).
Proof.
  intros [schedule Hrun]. revert Hrun.
  assert (Forall (paced (requestDelay cfg))
            (workers (start (concurrencyLimit cfg) urls))) as H0.
  { pose proof (launch_pace (concurrencyLimit cfg) urls) as Hf.
    eapply Forall_impl; [exact Hf|]. intros t [->|[u ->]] ms; discriminate. }
  revert H0. generalize (start (concurrencyLimit cfg) urls).
  induction schedule as [|e schedule IH]; intros s0 H0; simpl.
  - by intros [= <-].
  - destruct (step (requestDelay cfg) e s0) as [s1|] eqn:He; [|done]. simpl.
    apply IH. clear IH. destruct e as [i | i get | i | paused]; simpl in He.
    + destruct (workers s0 !! i) as [[ms| | | |]|] eqn:Hi; try done.
      unfold run_worker in He.
      destruct (worker (isPaused s0) (urlQueue s0)) as [[t q] taken] eqn:Hw.
      injection He as <-. simpl. apply Forall_insert; [done|].
      intros ms'. destruct (worker_task _ _ _ _ _ Hw) as [->|[->|[u ->]]];
        intros [= <-] || discriminate. by right.
    + destruct (workers s0 !! i) as [[|u| | |]|] eqn:Hi; try done.
      destruct (validateURL u get (records s0)) as [[result|err] r];
        injection He as <-; simpl; apply Forall_insert; try done;
        intros ms'; discriminate.
    + destruct (workers s0 !! i) as [[| |result| |]|] eqn:Hi; try done.
      injection He as <-. simpl. apply Forall_insert; [done|].
      intros ms' [= <-]. by left.
    + by injection He as <-.
Qed.

(** After the launch a worker sends a request only when a delay it awaited
    is over and the flag is not set, and that delay was the request delay
    of the configuration, or the second of a pause: between two requests of
    one worker there is always a delay. *)
Theorem requests_are_paced cfg urls s e s' i u :
  reachable cfg urls s →
  step (requestDelay cfg) e s = Some s' →
  workers s' !! i = Some (AwaitGet u) →
  workers s !! i ≠ Some (AwaitGet u) →
  e = Timer i ∧ isPaused s = false ∧
  (workers s !! i = Some (AwaitDelay (Number (requestDelay cfg))) ∨
   workers s !! i = Some (AwaitDelay (of_Z 1000))).
Proof.
  intros Hreach Hstep Hnew Hold.
  pose proof (reachable_paced _ _ _ Hreach) as Hpaced.
  destruct e as [j | j get | j | paused]; simpl in Hstep.
  - destruct (workers s !! j) as [[ms| | | |]|] eqn:Hj; try done.
    unfold run_worker in Hstep.
    destruct (worker (isPaused s) (urlQueue s)) as [[t q] taken] eqn:Hw.
    injection Hstep as <-. simpl in Hnew.
    apply list_lookup_insert_Some in Hnew as [(-> & -> & _)|[_ ?]]; [|done].
    split; [done|]. split.
    + destruct (isPaused s) eqn:Hp; [|done].
      destruct (worker_spec _ _ _ _ _ Hw) as (_ & _ & _ & _ & He & Hpq & _).
      destruct (decide (urlQueue s = [])) as [Hq|Hq].
      * by specialize (He Hq).
      * by destruct (Hpq eq_refl Hq) as [? _].
    + rewrite Forall_lookup in Hpaced.
      destruct (Hpaced _ _ Hj ms eq_refl) as [->| ->]; auto.
  - destruct (workers s !! j) as [[|v| | |]|] eqn:Hj; try done.
    destruct (validateURL v get (records s)) as [[result|err] r];
      injection Hstep as <-; simpl in Hnew;
      by apply list_lookup_insert_Some in Hnew as [(_ & ? & _)|[_ ?]].
  - destruct (workers s !! j) as [[| |result| |]|] eqn:Hj; try done.
    injection Hstep as <-. simpl in Hnew.
    by apply list_lookup_insert_Some in Hnew as [(_ & ? & _)|[_ ?]].
  - by injection Hstep as <-.
Qed.

Lemma requests_are_paced_witness :
  let cfg := {| sitemapUrl := "http://a.test/sitemap.xml";
                concurrencyLimit := "1"; requestDelay := "300";
                traversalOrder := "sequential" |} in
  let urls := ["https://a.test/"; "https://b.test/"] in
  let schedule := [Settle 0 (Fulfilled 200); Resume 0] in
  ∃ s s', run "300" schedule (start "1" urls) = Some s ∧
          step "300" (Timer 0) s = Some s' ∧
          workers s' !! 0 = Some (AwaitGet "https://b.test/") ∧
          workers s !! 0 = Some (AwaitDelay (Number "300")).
Proof.
  intros cfg urls schedule. eexists. eexists.
  split; [vm_compute; reflexivity|]. split; [vm_compute; reflexivity|].
  split; [reflexivity|].
  match goal with |- workers ?s !! 0 = _ =>
    destruct (requests_are_paced cfg urls s (Timer 0)
                (set_task 0 (AwaitGet "https://b.test/") (run_worker s).2)
                0 "https://b.test/")
      as (_ & _ & [H|H]);
      [exists schedule; vm_compute; reflexivity | vm_compute; reflexivity
      | reflexivity | discriminate | exact H | discriminate H]
  end.
Defined.

(** ** Defaults of the prompts *)

Lemma answer_or_truthy line def : truthy line = true → answer_or line def = line.
Proof. intros H. unfold answer_or. by rewrite H. Qed.

Lemma sitemapUrl_ok_truthy input : sitemapUrl_ok input = true → truthy input = true.
Proof. by destruct input. Qed.

Lemma validateAsk_cons def validator line input :
  validateAsk def validator (line :: input) =
    if validator (answer_or line def) then Some (answer_or line def, input)
    else validateAsk def validator input.
Proof. reflexivity. Qed.

(** The prompt of the sitemap URL has no default that passes: an empty
    line there is read and the prompt comes again. The other three prompts
    take an empty line for their default, so that a URL followed by three
    empty lines gives the limit 5, the delay 1000 and the sequential
    order, and leaves the lines that follow unread. *)
Theorem askConfigurations_defaults sitemap input :
  sitemapUrl_ok sitemap = true →
  askConfigurations ("" :: input) = askConfigurations input ∧
  askConfigurations (sitemap :: "" :: "" :: "" :: input) =
    Some ({| sitemapUrl := sitemap; concurrencyLimit := "5";
             requestDelay := "1000"; traversalOrder := "sequential" |},
          input).
Proof.
  intros Hok. split; [reflexivity|].
  unfold askConfigurations. rewrite validateAsk_cons.
  rewrite (answer_or_truthy sitemap) by (by apply sitemapUrl_ok_truthy).
  rewrite Hok. reflexivity.
Qed.

Lemma askConfigurations_defaults_witness :
  askConfigurations [""; ""; "https://a.test/sitemap.xml"; ""; ""; ""; "n"] =
    Some ({| sitemapUrl := "https://a.test/sitemap.xml";
             concurrencyLimit := "5"; requestDelay := "1000";
             traversalOrder := "sequential" |}, ["n"]).
Proof.
  destruct (askConfigurations_defaults "https://a.test/sitemap.xml" ["n"])
    as [_ Hd]; [reflexivity|].
  destruct (askConfigurations_defaults "https://a.test/sitemap.xml"
              [""; "https://a.test/sitemap.xml"; ""; ""; ""; "n"])
    as [H1 _]; [reflexivity|].
  destruct (askConfigurations_defaults "https://a.test/sitemap.xml"
              ["https://a.test/sitemap.xml"; ""; ""; ""; "n"])
    as [H2 _]; [reflexivity|].
  rewrite H1, H2. exact Hd.
Defined.

(** ** The files saveResults writes *)

(** When the operator answers yes, the file that the name of the second
    prompt denotes holds the records of [parsedUrls]; the file that the
    name of the first prompt denotes holds those of [non200Urls] unless
    both names denote one file, which then holds [parsedUrls], written
    last. No other file changes, and no file name is empty: an empty line
    stands for the default name. *)
Theorem saveResults_files (stringify : list URLStatus → string)
    (resolve : string → string)
    (r : results) (files : gmap string string)
    (line name1 name2 : string) (input : stdin) :
  toLowerCase (answer_or line "Y") = "y" →
  let non200fileName := answer_or name1 "non200-urls.json" in
  let parsedFileName := answer_or name2 "parsed-urls.json" in
  ∃ files',
    saveResults stringify resolve r files (line :: name1 :: name2 :: input)
      = Some (files', input) ∧
    files' !! resolve parsedFileName = Some (stringify (parsedUrls r)) ∧
    (resolve non200fileName ≠ resolve parsedFileName →
     files' !! resolve non200fileName = Some (stringify (non200Urls r))) ∧
    (resolve non200fileName = resolve parsedFileName →
     files' !! resolve non200fileName = Some (stringify (parsedUrls r))) ∧
    (∀ path, path ≠ resolve non200fileName → path ≠ resolve parsedFileName →
       files' !! path = files !! path) ∧
    non200fileName ≠ "" ∧ parsedFileName ≠ "" ∧
    (name1 = "" → name2 = "" →
     non200fileName = "non200-urls.json" ∧ parsedFileName = "parsed-urls.json").
Proof.
  intros Hy non200fileName parsedFileName.
  eexists. split.
  { unfold saveResults, ask. simpl.
    destruct (String.eqb_spec (toLowerCase (answer_or line "Y")) "y"); [|done].
    reflexivity. }
  fold non200fileName parsedFileName. unfold saveToFile.
  split; [apply lookup_insert_eq|].
  split; [intros Hne; rewrite lookup_insert_ne by done; apply lookup_insert_eq|].
  split; [intros ->; apply lookup_insert_eq|].
  split; [intros path H1 H2; by rewrite !lookup_insert_ne by done|].
  unfold non200fileName, parsedFileName, answer_or.
  split; [by destruct (truthy name1) eqn:H1; [destruct name1|]|].
  split; [by destruct (truthy name2) eqn:H2; [destruct name2|]|].
  by intros -> ->.
Qed.

Lemma saveResults_files_witness :
  let r := {| non200Urls := [{| url := "https://b.test/"; status := 404 |}];
              parsedUrls := [{| url := "https://a.test/"; status := 200 |}] |} in
  let stringify := fun entries : list URLStatus =>
                     String.concat " " (map url entries) in
  let resolve := fun name : string =>
                   if String.prefix "./" name
                   then String.substring 2 (String.length name - 2) name
                   else name in
  ∃ files',
    saveResults stringify resolve r ∅ [""; "out.json"; "./out.json"]
      = Some (files', []) ∧
    files' !! "out.json" = Some "https://a.test/" ∧
    files' !! "./out.json" = None.
Proof.
  intros r stringify resolve.
  destruct (saveResults_files stringify resolve r ∅ "" "out.json" "./out.json" [])
    as (files' & Hs & Hp & _ & _ & Hother & _); [reflexivity|].
  exists files'. split; [exact Hs|]. split; [exact Hp|].
  by rewrite (Hother "./out.json").
Defined.

(** ** main, from the prompts to the files *)

Lemma main_pool_start cfg (fetched : list string) (g : rng) :
  main_pool cfg (alloc ∅ fetched).1 (alloc ∅ fetched).2 g
    = start (concurrencyLimit cfg) fetched.
Proof.
  unfold main_pool.
  pose proof (enqueue_queue (traversalOrder cfg) (alloc ∅ fetched).1
                (alloc (∅ : heap string) fetched).2 g) as Hq.
  destruct (enqueue _ _ _ _) as [[q h'] g']. simpl in Hq. rewrite Hq.
  unfold alloc, deref. simpl. by rewrite lookup_insert_eq.
Qed.

Lemma saveResults_Some stringify resolve r files input files' rest :
  saveResults stringify resolve r files input = Some (files', rest) →
  files' = files ∨
  ∃ name1 name2, name1 ≠ "" ∧ name2 ≠ "" ∧
    files' = <[resolve name2 := stringify (parsedUrls r)]>
               (<[resolve name1 := stringify (non200Urls r)]> files).
Proof.
  unfold saveResults, ask. destruct input as [|line input]; [done|]. simpl.
  destruct (String.eqb (toLowerCase (answer_or line "Y")) "y");
    [|intros [= <- <-]; by left].
  destruct input as [|name1 [|name2 input]]; try done. simpl.
  intros [= <- <-]. right.
  exists (answer_or name1 "non200-urls.json"),
         (answer_or name2 "parsed-urls.json").
  unfold answer_or.
  split; [by destruct (truthy name1) eqn:H1; [destruct name1|]|].
  split; [by destruct (truthy name2) eqn:H2; [destruct name2|]|]. done.
Qed.

(** When [main] gets to its end: if [fetchSitemap] threw, no file has
    changed. Otherwise the configuration asked for was accepted by its
    validators, the run it started is over with every non-empty URL of the
    sitemap recorded once and counted in [processed], and the files are as
    they were or hold, in the files that two names that are not empty
    denote, the two result arrays of that run. *)
Theorem main_saves_what_it_checked (stringify : list URLStatus → string)
    (resolve : string → string)
    (input : stdin) (fetched : option (list string)) (g : rng)
    (schedule : list event) (files files' : gmap string string)
    (rest : stdin) :
  main stringify resolve input fetched g schedule files
    = Some (files', rest) →
  match fetched with
  | None => files' = files
  | Some urls =>
      ∃ cfg s,
        concurrencyLimit_ok (concurrencyLimit cfg) = true ∧
        requestDelay_ok (requestDelay cfg) = true ∧
        run (requestDelay cfg) schedule (start (concurrencyLimit cfg) urls)
          = Some s ∧
        all_done s = true ∧
        map url (reported (records s))
          ≡ₚ filter (fun u => truthy u = true) urls ∧
        processed s = length (filter (fun u => truthy u = true) urls) ∧
        (files' = files ∨
         ∃ name1 name2, name1 ≠ "" ∧ name2 ≠ "" ∧
           files' = <[resolve name2 := stringify (parsedUrls (records s))]>
                      (<[resolve name1 := stringify (non200Urls (records s))]>
                         files))
  end.
Proof.
  unfold main.
  destruct (askConfigurations input) as [[cfg input1]|] eqn:Hcfg; [|done].
  cbn -[main_pool alloc]. destruct fetched as [urls|]; [|by intros [= <- <-]].
  pose proof (main_pool_start cfg urls g) as Hpool.
  destruct (alloc ∅ urls) as [l h]. simpl in Hpool. rewrite Hpool.
  destruct (run (requestDelay cfg) schedule (start (concurrencyLimit cfg) urls))
    as [s|] eqn:Hrun; [|done]. simpl.
  destruct (all_done s) eqn:Hdone; [|done]. intros Hsave.
  destruct (askConfigurations_valid _ _ _ Hcfg) as (_ & Hlimit & Hdelay & _).
  assert (reachable cfg urls s) as Hreach by (by exists schedule).
  destruct (all_done_drained _ _ _ Hlimit Hreach Hdone) as [_ Hv].
  destruct (reachable_records_inv _ _ _ Hreach) as [Hu _].
  destruct (all_done_idle _ Hdone) as [Hr _]. rewrite Hr in Hu. simpl in Hu.
  pose proof (reachable_inv urls cfg s Hreach) as [_ _ Hp _ _ _].
  rewrite all_done_pending in Hp by done.
  exists cfg, s. repeat (split; [done|]).
  split; [by rewrite <- Hu, Hv|]. split; [rewrite <- Hv; lia|].
  by eapply saveResults_Some.
Qed.

Lemma main_saves_what_it_checked_witness :
  let stringify := fun entries : list URLStatus =>
                     String.concat " " (map url entries) in
  let input := ["http://a.test/sitemap.xml"; "1"; "300"; ""; "y"; ""; ""] in
  let urls := ["https://a.test/"; ""; "https://b.test/"] in
  let schedule := [Settle 0 (Fulfilled 200); Resume 0; Timer 0;
                   Settle 0 (Rejected (Some 404%Z)); Resume 0; Timer 0] in
  let resolve := fun name : string => ("/home/crawler/" +:+ name)%string in
  let files' := <["/home/crawler/parsed-urls.json" := "https://a.test/"]>
                  (<["/home/crawler/non200-urls.json" := "https://b.test/"]> ∅) in
  main stringify resolve input (Some urls) (fun _ => zero_real) schedule ∅
    = Some (files', []) ∧
  ∃ cfg s,
    run (requestDelay cfg) schedule (start (concurrencyLimit cfg) urls)
      = Some s ∧ processed s = 2.
Proof.
  intros stringify input urls schedule resolve files'.
  assert (main stringify resolve input (Some urls) (fun _ => zero_real)
            schedule ∅ = Some (files', [])) as Hmain by reflexivity.
  split; [exact Hmain|].
  pose proof (main_saves_what_it_checked _ _ _ (Some urls) _ _ _ _ _ Hmain)
    as (cfg & s & _ & _ & Hrun & _ & _ & Hp & _).
  exists cfg, s. split; [exact Hrun | exact Hp].
Defined.
